(** * Route compiler of exile-leveling: a shallow embedding

    Source: [src/common/routes/index.ts].  The evaluators mutate one
    [RouteState] in place and return [string | EvaluateResult]; here every
    evaluator is a function from the state before the call to a completion
    (a returned value, or a thrown [TypeError]) paired with the state after
    the call, so that a mutation made before a failing check would show. *)

From Stdlib Require Import ZArith String Ascii List Bool Lia SpecFloat DecimalString.
From stdpp Require Import base option list strings gmap.

Local Open Scope string_scope.
Local Open Scope Z_scope.

(** ** JavaScript values the module relies on *)

(** A [Set<string>]: its elements in insertion order, without repetition. *)
Module JsSet.
Definition t := list string.

Definition empty : t := [].

Definition has (s : t) (x : string) : bool := existsb (String.eqb x) s.

Definition add (s : t) (x : string) : t := if has s x then s else (s ++ [x])%list.

Definition add_all (s : t) (xs : list string) : t := foldl add s xs.
End JsSet.

(** A plain object used as a table: its own enumerable string-keyed
    properties in [for ... in] order.  Its prototype is [Object.prototype],
    so that [o[key]] also finds the members of that object. *)
Module JsObject.
Definition t (V : Type) := list (string * V).

(** The own property under [key]. *)
Fixpoint get {V : Type} (o : t V) (key : string) : option V :=
  match o with
  | [] => None
  | (k, v) :: o' => if String.eqb k key then Some v else get o' key
  end.

(** The property names of [Object.prototype]. *)
Definition prototype_members : list string :=
  ["constructor"; "__defineGetter__"; "__defineSetter__"; "hasOwnProperty";
   "__lookupGetter__"; "__lookupSetter__"; "isPrototypeOf";
   "propertyIsEnumerable"; "toString"; "valueOf"; "__proto__";
   "toLocaleString"].

Definition is_prototype_member (key : string) : bool :=
  existsb (String.eqb key) prototype_members.

(** What [o[key]] finds: an own property, a member of [Object.prototype]
    (a function, or for [__proto__] the prototype itself: truthy, not
    iterable, and without any of the fields of the table's values), or
    nothing, which reads [undefined]. *)
Inductive Read (V : Type) :=
  | Own (v : V)
  | Inherited
  | Absent.
Arguments Own {V} v.
Arguments Inherited {V}.
Arguments Absent {V}.

Definition read {V : Type} (o : t V) (key : string) : Read V :=
  match get o key with
  | Some v => Own v
  | None => if is_prototype_member key then Inherited else Absent
  end.

End JsObject.

(** A slot declared [string] or [string | null] that can also hold
    [undefined] at run time (the result of reading an absent property). *)
Inductive IdSlot :=
  | Id (s : string)
  | Null
  | Undefined.

(** [ToPropertyKey]: the string under which a slot's value indexes an object. *)
Definition to_key (v : IdSlot) : string :=
  match v with
  | Id s => s
  | Null => "null"
  | Undefined => "undefined"
  end.

(** [!v]: [null], [undefined] and the empty string are falsy. *)
Definition falsy (v : IdSlot) : bool :=
  match v with
  | Id s => String.eqb s EmptyString
  | Null | Undefined => true
  end.

(** [s == v] for a string [s]. *)
Definition str_eq_slot (s : string) (v : IdSlot) : bool :=
  match v with
  | Id s' => String.eqb s s'
  | Null | Undefined => false
  end.

(** A [Set] whose elements can be [undefined]: the values in insertion
    order, without repetition. *)
Module JsValueSet.
Definition t := list IdSlot.

Definition empty : t := [].

Definition same_value (x y : IdSlot) : bool :=
  match x, y with
  | Id a, Id b => String.eqb a b
  | Null, Null | Undefined, Undefined => true
  | _, _ => false
  end.

Definition has (s : t) (x : IdSlot) : bool := existsb (same_value x) s.

Definition add (s : t) (x : IdSlot) : t := if has s x then s else (s ++ [x])%list.
End JsValueSet.

(** [array[i]] used as a property key: an absent element reads [undefined]. *)
Definition elem_key (a : list string) (i : nat) : string :=
  match a !! i with
  | Some s => s
  | None => "undefined"
  end.

(** [array.join(sep)] on an array of strings. *)
Fixpoint join (sep : string) (xs : list string) : string :=
  match xs with
  | [] => EmptyString
  | [x] => x
  | x :: xs' => x +:+ sep +:+ join sep xs'
  end.

(** A completion of a call: it returns, or it throws. *)
Inductive JsError := TypeError.

Inductive Completion (A : Type) :=
  | Normal (a : A)
  | Throw (e : JsError).
Arguments Normal {A} a.
Arguments Throw {A} e.

(** ** Data model *)

(** Modelled from the spec: the [Area] type of [../types], which is not
    part of the sources at hand; the fields are the ones the route module
    reads. *)
Record Area := {
  area_id : string;
  act : Z;
  name : string;
  connection_ids : list string;
  is_town_area : bool;
  has_waypoint : bool;
  crafting_recipes : list string;
}.

Definition ParsedAction := list string.

Inductive ParsedPart :=
  | ParsedText (text : string)
  | ParsedToken (action : ParsedAction).

Definition ParsedActionStep := list ParsedPart.

Record RequiredGem := { gem_id : string; note : string }.

Record BuildData := { characterClass : string; requiredGems : list RequiredGem }.

Record RouteLookup := {
  towns : gmap Z string;
  buildData : option BuildData;
}.

Record RouteState := {
  implicitWaypoints : JsSet.t;
  explicitWaypoints : JsSet.t;
  usedWaypoints : JsSet.t;
  craftingAreas : JsValueSet.t;
  currentAreaId : IdSlot;
  lastTownAreaId : string;
  portalAreaId : IdSlot;
  acquiredGems : JsSet.t;
}.

Definition set_implicitWaypoints (v : JsSet.t) (s : RouteState) : RouteState :=
  {| implicitWaypoints := v; explicitWaypoints := explicitWaypoints s;
     usedWaypoints := usedWaypoints s; craftingAreas := craftingAreas s;
     currentAreaId := currentAreaId s; lastTownAreaId := lastTownAreaId s;
     portalAreaId := portalAreaId s; acquiredGems := acquiredGems s |}.

Definition set_explicitWaypoints (v : JsSet.t) (s : RouteState) : RouteState :=
  {| implicitWaypoints := implicitWaypoints s; explicitWaypoints := v;
     usedWaypoints := usedWaypoints s; craftingAreas := craftingAreas s;
     currentAreaId := currentAreaId s; lastTownAreaId := lastTownAreaId s;
     portalAreaId := portalAreaId s; acquiredGems := acquiredGems s |}.

Definition set_usedWaypoints (v : JsSet.t) (s : RouteState) : RouteState :=
  {| implicitWaypoints := implicitWaypoints s; explicitWaypoints := explicitWaypoints s;
     usedWaypoints := v; craftingAreas := craftingAreas s;
     currentAreaId := currentAreaId s; lastTownAreaId := lastTownAreaId s;
     portalAreaId := portalAreaId s; acquiredGems := acquiredGems s |}.

Definition set_craftingAreas (v : JsValueSet.t) (s : RouteState) : RouteState :=
  {| implicitWaypoints := implicitWaypoints s; explicitWaypoints := explicitWaypoints s;
     usedWaypoints := usedWaypoints s; craftingAreas := v;
     currentAreaId := currentAreaId s; lastTownAreaId := lastTownAreaId s;
     portalAreaId := portalAreaId s; acquiredGems := acquiredGems s |}.

Definition set_currentAreaId (v : IdSlot) (s : RouteState) : RouteState :=
  {| implicitWaypoints := implicitWaypoints s; explicitWaypoints := explicitWaypoints s;
     usedWaypoints := usedWaypoints s; craftingAreas := craftingAreas s;
     currentAreaId := v; lastTownAreaId := lastTownAreaId s;
     portalAreaId := portalAreaId s; acquiredGems := acquiredGems s |}.

Definition set_lastTownAreaId (v : string) (s : RouteState) : RouteState :=
  {| implicitWaypoints := implicitWaypoints s; explicitWaypoints := explicitWaypoints s;
     usedWaypoints := usedWaypoints s; craftingAreas := craftingAreas s;
     currentAreaId := currentAreaId s; lastTownAreaId := v;
     portalAreaId := portalAreaId s; acquiredGems := acquiredGems s |}.

Definition set_portalAreaId (v : IdSlot) (s : RouteState) : RouteState :=
  {| implicitWaypoints := implicitWaypoints s; explicitWaypoints := explicitWaypoints s;
     usedWaypoints := usedWaypoints s; craftingAreas := craftingAreas s;
     currentAreaId := currentAreaId s; lastTownAreaId := lastTownAreaId s;
     portalAreaId := v; acquiredGems := acquiredGems s |}.

Definition ERROR_INVALID_FORMAT : string := "invalid format".
Definition ERROR_MISSING_AREA : string := "area does not exist".
Definition ERROR_AREA_NO_WAYPOINT : string := "area does not have a waypoint".

Definition dquote : string := String (ascii_of_nat 34) EmptyString.

(** ** Strings

    A [string] holds the code units of a JavaScript string, each one
    encoded as UTF-8 encodes the character of that number: a code unit
    below U+0080 is one byte, U+00A0 is the two bytes C2 A0, U+2028 the
    three bytes E2 80 A8, and a character beyond U+FFFF is its two
    surrogates, one after the other.  Concatenation and equality of
    JavaScript strings are concatenation and equality of their encodings,
    and what the regular expressions and [parseFloat] ask of a code unit
    is asked here of the bytes that encode it; lengths and offsets, which
    the module never shows, count bytes. *)

Definition utf8 (bytes : list Z) : string :=
  string_of_list_ascii (List.map (fun b => ascii_of_nat (Z.to_nat b)) bytes).

(** [\s], which is also what [parseFloat] skips: the white space and the
    line terminator characters. *)
Definition white_space : list string :=
  [utf8 [9]; utf8 [10]; utf8 [11]; utf8 [12]; utf8 [13]; utf8 [32];
   (* U+00A0 *) utf8 [194; 160];
   (* U+1680 *) utf8 [225; 154; 128];
   (* U+2000 to U+200A *)
   utf8 [226; 128; 128]; utf8 [226; 128; 129]; utf8 [226; 128; 130];
   utf8 [226; 128; 131]; utf8 [226; 128; 132]; utf8 [226; 128; 133];
   utf8 [226; 128; 134]; utf8 [226; 128; 135]; utf8 [226; 128; 136];
   utf8 [226; 128; 137]; utf8 [226; 128; 138];
   (* U+2028, U+2029 *) utf8 [226; 128; 168]; utf8 [226; 128; 169];
   (* U+202F *) utf8 [226; 128; 175];
   (* U+205F *) utf8 [226; 129; 159];
   (* U+3000 *) utf8 [227; 128; 128];
   (* U+FEFF *) utf8 [239; 187; 191]].

(** The characters [.] does not match: line feed, carriage return, U+2028
    and U+2029. *)
Definition line_terminators : list string :=
  [utf8 [10]; utf8 [13]; utf8 [226; 128; 168]; utf8 [226; 128; 169]].

(** Number of bytes of the character of [chars] that [s] starts with; 0
    when it starts with none of them. *)
Definition width_of (chars : list string) (s : string) : nat :=
  match List.find (fun w => String.prefix w s) chars with
  | Some w => String.length w
  | None => 0%nat
  end.

Definition line_terminator_width (s : string) : nat :=
  width_of line_terminators s.

(** [s.slice(n)] and [s.slice(0, n)] *)
Fixpoint drop_string (n : nat) (s : string) : string :=
  match n, s with
  | S n', String _ s' => drop_string n' s'
  | _, _ => s
  end.

Fixpoint take_string (n : nat) (s : string) : string :=
  match n, s with
  | S n', String c s' => String c (take_string n' s')
  | _, _ => EmptyString
  end.

(** Length of the longest run of characters of [chars] that [s] starts
    with; [skip] bytes of the current character are still to be passed. *)
Fixpoint chars_run (chars : list string) (skip : nat) (s : string) : nat :=
  match s with
  | EmptyString => 0%nat
  | String _ s' =>
      match skip with
      | S k => S (chars_run chars k s')
      | O =>
          match width_of chars s with
          | S w => S (chars_run chars w s')
          | O => 0%nat
          end
      end
  end.

(** What [\s*] takes. *)
Definition space_run (s : string) : nat := chars_run white_space 0 s.

(** What [.*] takes: up to where the next line terminator starts. *)
Fixpoint line_run (s : string) : nat :=
  match s with
  | EmptyString => 0%nat
  | String _ s' =>
      match line_terminator_width s with
      | O => S (line_run s')
      | S _ => 0%nat
      end
  end.

(** The string is white space throughout. *)
Definition all_space (s : string) : bool :=
  Nat.eqb (space_run s) (String.length s).

(** No line terminator occurs in the string. *)
Definition no_line_terminator (s : string) : bool :=
  Nat.eqb (line_run s) (String.length s).

(** The two characters a document is split at: carriage return and line
    feed. *)
Definition is_line_break (c : ascii) : bool :=
  match nat_of_ascii c with
  | 10%nat | 13%nat => true
  | _ => false
  end.

Definition not_line_break (c : ascii) : bool := negb (is_line_break c).

(** [s.split(sep)] for a one-character separator. *)
Fixpoint split (sep : ascii) (s : string) : list string :=
  match s with
  | EmptyString => [EmptyString]
  | String c s' =>
      if Ascii.eqb c sep then EmptyString :: split sep s'
      else match split sep s' with
           | x :: xs => String c x :: xs
           | [] => [String c EmptyString]
           end
  end.

(** ** Numbers: IEEE 754 binary64 *)
Module JsNumber.
Definition prec : Z := 53.
Definition emax : Z := 1024.

Definition number := spec_float.

Definition of_Z (n : Z) : number := binary_normalize prec emax n 0 false.

Definition add : number -> number -> number := SFadd prec emax.
Definition div : number -> number -> number := SFdiv prec emax.
Definition ltb : number -> number -> bool := SFltb.
Definition eqb : number -> number -> bool := SFeqb.

(** [Number.isNaN] *)
Definition isNaN (x : number) : bool :=
  match x with
  | S754_nan => true
  | _ => false
  end.

(** [n % d]: the remainder of the truncating division, computed exactly;
    it has the sign of the dividend. *)
Definition rem (n d : number) : number :=
  match n, d with
  | S754_nan, _ | _, S754_nan => S754_nan
  | S754_infinity _, _ => S754_nan
  | _, S754_zero _ => S754_nan
  | _, S754_infinity _ => n
  | S754_zero _, _ => n
  | S754_finite sn mn en, S754_finite _ md ed =>
      let e := Z.min en ed in
      let r := (Z.shiftl (Zpos mn) (en - e)) mod (Z.shiftl (Zpos md) (ed - e)) in
      if r =? 0 then S754_zero sn
      else binary_normalize prec emax (cond_Zopp sn r) e false
  end.

(** [Math.floor] *)
Definition floor (x : number) : number :=
  match x with
  | S754_finite s m e =>
      if 0 <=? e then x
      else binary_normalize prec emax (Z.shiftr (cond_Zopp s (Zpos m)) (- e)) 0 false
  | _ => x
  end.

Definition digit_of (c : ascii) : option Z :=
  let n := nat_of_ascii c in
  if (48 <=? n)%nat && (n <=? 57)%nat then Some (Z.of_nat n - 48) else None.

(** The longest run of decimal digits at the head of [s]: the number read
    so far, how many digits were read, and what follows. *)
Fixpoint take_digits (acc count : Z) (s : string) : Z * Z * string :=
  match s with
  | EmptyString => (acc, count, s)
  | String c s' =>
      match digit_of c with
      | Some d => take_digits (10 * acc + d) (count + 1) s'
      | None => (acc, count, s)
      end
  end.

Definition trim_start (s : string) : string := drop_string (space_run s) s.

Definition take_sign (s : string) : bool * string :=
  match s with
  | String c s' =>
      if Ascii.eqb c "-" then (true, s')
      else if Ascii.eqb c "+" then (false, s')
      else (false, s)
  | EmptyString => (false, s)
  end.

(** The value [(-1)^neg * m * 10^d], rounded to the nearest number, ties
    to even. *)
Definition decimal (neg : bool) (m d : Z) : number :=
  match m with
  | Zpos p =>
      SFdiv prec emax
        (S754_finite neg (Z.to_pos (Zpos p * 10 ^ Z.max d 0)) 0)
        (S754_finite false (Z.to_pos (10 ^ Z.max (- d) 0)) 0)
  | _ => S754_zero neg
  end.

(** [Number.parseFloat]: leading white space is skipped, then the longest
    prefix that is a [StrDecimalLiteral] is read; [NaN] when there is none. *)
Definition parseFloat (s : string) : number :=
  let '(neg, s0) := take_sign (trim_start s) in
  if String.prefix "Infinity" s0 then S754_infinity neg
  else
    let '(ip, ni, s1) := take_digits 0 0 s0 in
    let '(m, nf, s2) :=
      match s1 with
      | String c s1' =>
          if Ascii.eqb c "." then take_digits ip 0 s1' else (ip, 0, s1)
      | EmptyString => (ip, 0, s1)
      end in
    if (ni =? 0) && (nf =? 0) then S754_nan
    else
      let ex :=
        match s2 with
        | String c s3 =>
            if Ascii.eqb c "e" || Ascii.eqb c "E" then
              let '(eneg, s4) := take_sign s3 in
              let '(ev, ne, _) := take_digits 0 0 s4 in
              if ne =? 0 then 0 else cond_Zopp eneg ev
            else 0
        | EmptyString => 0
        end in
      decimal neg m (ex - nf).
End JsNumber.

(** ** The lexer: [parseStep]

    [text.matchAll(regex)] with the global three-way alternation of the
    source: a comment (white space, [#], rest of the line), a run of text
    without [{] and [#], a braced group.  At each position the alternatives
    are tried in that order, a match moves the position past it, and a
    position where none matches is passed over. *)

Inductive RegexMatch :=
  | CommentMatch (comment : string)
  | TextMatch (text : string)
  | ActionMatch (inner : string).

(** Length of the longest prefix whose characters all satisfy [p]. *)
Fixpoint run_length (p : ascii -> bool) (s : string) : nat :=
  match s with
  | EmptyString => 0%nat
  | String c s' => if p c then S (run_length p s') else 0%nat
  end.

Definition text_char (c : ascii) : bool :=
  negb (Ascii.eqb c "{") && negb (Ascii.eqb c "#").

(** First alternative: the white space run must be followed by [#]; the
    comment then runs to the next line terminator. *)
Definition comment_at (s : string) : option nat :=
  let n := space_run s in
  match drop_string n s with
  | String c rest =>
      if Ascii.eqb c "#" then Some (n + 1 + line_run rest)%nat
      else None
  | EmptyString => None
  end.

(** The rest of a braced group after its first inner character: up to the
    first [}], with no line terminator on the way. *)
Fixpoint until_close (s : string) : option string :=
  match s with
  | EmptyString => None
  | String c s' =>
      if Ascii.eqb c "}" then Some EmptyString
      else match line_terminator_width s with
           | S _ => None
           | O =>
               match until_close s' with
               | Some inner => Some (String c inner)
               | None => None
               end
           end
  end.

(** Third alternative: [{], one inner character at least (lazily more),
    then [}]. *)
Definition action_at (s : string) : option string :=
  match s with
  | String c0 (String c1 rest as inside) =>
      if Ascii.eqb c0 "{" && Nat.eqb (line_terminator_width inside) 0 then
        match until_close rest with
        | Some inner => Some (String c1 inner)
        | None => None
        end
      else None
  | _ => None
  end.

(** The match at the head of [s], if any, and its length. *)
Definition match_at (s : string) : option (RegexMatch * nat) :=
  match comment_at s with
  | Some n => Some (CommentMatch (take_string n s), n)
  | None =>
      let n := run_length text_char s in
      if (0 <? n)%nat then Some (TextMatch (take_string n s), n)
      else match action_at s with
           | Some inner => Some (ActionMatch inner, (String.length inner + 2)%nat)
           | None => None
           end
  end.

(** [matchAll]: [skip] characters of the last match are still to be passed. *)
Fixpoint match_all (skip : nat) (s : string) : list RegexMatch :=
  match s with
  | EmptyString => []
  | String _ s' =>
      match skip with
      | S k => match_all k s'
      | O =>
          match match_at s with
          | Some (m, n) => m :: match_all (n - 1) s'
          | None => match_all 0 s'
          end
      end
  end.

Definition parseStep (text : string) : ParsedActionStep :=
  flat_map
    (fun m =>
       match m with
       | CommentMatch _ => []
       | TextMatch textMatch => [ParsedText textMatch]
       | ActionMatch actionMatch => [ParsedToken (split "|" actionMatch)]
       end)
    (match_all 0 text).

(** ** The direction index, in the words of the specification *)

(** The angle modulo 360, plus 360 when negative, must be a multiple of 45;
    the index is that angle divided by 45. *)
Definition spec_dir_index (angle : Z) : option Z :=
  let dir := Z.rem angle 360 in
  let dir := if dir <? 0 then dir + 360 else dir in
  if Z.rem dir 45 =? 0 then Some (dir / 45) else None.

(** The decimal numeral of an integer, as a route would spell it. *)
Definition numeral (n : Z) : string := NilZero.string_of_int (Z.to_int n).

(** ** Kinds of lines *)

Fixpoint all_chars (p : ascii -> bool) (s : string) : bool :=
  match s with
  | EmptyString => true
  | String c s' => p c && all_chars p s'
  end.

(** No character of [chars] holds the byte [b]. *)
Definition avoids (b : ascii) (chars : list string) : bool :=
  forallb (all_chars (fun c => negb (Ascii.eqb c b))) chars.

(** Optional white space, then [#] and a rest that holds no line
    terminator. *)
Definition comment_only (line : string) : Prop :=
  exists ws rest,
    line = ws +:+ String "#" rest
    /\ all_space ws = true
    /\ no_line_terminator rest = true.

Definition not_close (c : ascii) : bool := negb (Ascii.eqb c "}").

Definition not_pipe (c : ascii) : bool := negb (Ascii.eqb c "|").

(** What may follow a run of text for the run to be lexed as one text
    fragment: the end of the line, a brace, or a [#] when the text is not
    all white space (white space before [#] belongs to the comment). *)
Definition ends_text (text rest : string) : Prop :=
  rest = EmptyString
  \/ (exists r, rest = String "{" r)
  \/ (exists r, rest = String "#" r /\ all_space text = false).

(** What every lexed part satisfies: a text fragment is non-empty and free
    of [{] and [#]; a token has at least one field, and its fields are
    free of [|] and of line terminators. *)
Definition parsed_part_ok (part : ParsedPart) : Prop :=
  match part with
  | ParsedText text => text <> EmptyString /\ all_chars text_char text = true
  | ParsedToken fields =>
      fields <> []
      /\ Forall (fun field => all_chars not_pipe field = true
                              /\ no_line_terminator field = true)
           fields
  end.

(** ** What the post-pass reports *)

(** An explicit waypoint that was never travelled to. *)
Definition is_unused (state : RouteState) (waypoint : string) : Prop :=
  JsSet.has (usedWaypoints state) waypoint = false.

(** An area with recipes that was never a crafting stop. *)
Definition is_missing_crafting (state : RouteState) (area : Area) : Prop :=
  crafting_recipes area <> []
  /\ JsValueSet.has (craftingAreas state) (Id (area_id area)) = false.

#[global] Instance is_unused_dec (state : RouteState) (waypoint : string) :
  Decision (is_unused state waypoint).
Proof. unfold is_unused. apply _. Defined.

#[global] Instance is_missing_crafting_dec (state : RouteState) (area : Area) :
  Decision (is_missing_crafting state area).
Proof. unfold is_missing_crafting. apply _. Defined.

(** ** A small world, for the examples *)

Definition twilight_strand : Area :=
  {| area_id := "1_1_1"; act := 1; name := "The Twilight Strand";
     connection_ids := ["1_1_town"]; is_town_area := false;
     has_waypoint := false; crafting_recipes := [] |}.

Definition lioneyes_watch : Area :=
  {| area_id := "1_1_town"; act := 1; name := "Lioneye's Watch";
     connection_ids := ["1_1_1"; "1_1_2"; "Labyrinth_Airlock"];
     is_town_area := true; has_waypoint := true; crafting_recipes := [] |}.

Definition the_coast : Area :=
  {| area_id := "1_1_2"; act := 1; name := "The Coast";
     connection_ids := ["1_1_town"]; is_town_area := false;
     has_waypoint := true; crafting_recipes := ["Fire Resistance"; "Life"] |}.

Definition aspirants_plaza : Area :=
  {| area_id := "Labyrinth_Airlock"; act := 12; name := "Aspirants' Plaza";
     connection_ids := ["1_1_town"]; is_town_area := false;
     has_waypoint := false; crafting_recipes := [] |}.

(** The areas of act 1. *)
Definition demo_areas : JsObject.t Area :=
  [("1_1_1", twilight_strand); ("1_1_town", lioneyes_watch);
   ("1_1_2", the_coast)].

(** The same with the labyrinth entry, whose act has no town. *)
Definition demo_areas_lab : JsObject.t Area :=
  (demo_areas ++ [("Labyrinth_Airlock", aspirants_plaza)])%list.

Definition demo_killWaypoints : gmap string (list string) :=
  {[ "Hillock" := ["1_1_2"] ]}.

Definition demo_lookup : RouteLookup :=
  {| towns := {[ 1 := "1_1_town" ]}; buildData := None |}.

Definition demo_state : RouteState :=
  {| implicitWaypoints := []; explicitWaypoints := []; usedWaypoints := [];
     craftingAreas := []; currentAreaId := Id "1_1_1";
     lastTownAreaId := "1_1_town"; portalAreaId := Null; acquiredGems := [] |}.

Definition demo_state_coast : RouteState :=
  set_currentAreaId (Id "1_1_2") demo_state.


(** The labyrinth entry, placed in act 1 so that its act has a town. *)
Definition aspirants_plaza_act1 : Area :=
  {| area_id := "Labyrinth_Airlock"; act := 1; name := "Aspirants' Plaza";
     connection_ids := ["1_1_town"]; is_town_area := false;
     has_waypoint := true; crafting_recipes := [] |}.

Definition demo_areas_plaza : JsObject.t Area :=
  (demo_areas ++ [("Labyrinth_Airlock", aspirants_plaza_act1)])%list.

Definition demo_state_plaza : RouteState :=
  set_currentAreaId (Id "Labyrinth_Airlock") demo_state.

(** ** Evaluators *)

Section Routes.

(** The tables of [../../common/data] and the quest evaluators of
    [./quest] are not part of the sources at hand; the development is
    parameterised by them.  Both tables are plain objects: [areas] is given
    by its own properties in enumeration order, [killWaypoints] by its own
    properties as a finite map, and a key that is not among them is looked
    for on [Object.prototype]. *)
Context {QuestAction QuestTextAction RewardStep : Type}.

Variable areas : JsObject.t Area.
Variable killWaypoints : gmap string (list string).

(** The payloads carry what the code puts in them: the [areaId] of an
    [area] action and the recipes of a [crafting] action are [undefined]
    when the area read is a member of [Object.prototype]. *)

Inductive Action :=
  | KillAction (value : string)
  | ArenaAction (value : string)
  | AreaAction (areaId : IdSlot)
  | EnterAction (areaId : string)
  | TownAction
  | WaypointAction (areaId : option string)
  | GetWaypointAction
  | SetPortalAction
  | UsePortalAction
  | OfQuestAction (a : QuestAction)
  | OfQuestTextAction (a : QuestTextAction)
  | GenericAction (value : string)
  | TrialAction
  | AscendAction
  | DirectionAction (dirIndex : JsNumber.number)
  | CraftingAction (recipes : option (list string)).

Inductive Part :=
  | TextPart (text : string)
  | ActionPart (a : Action).

Inductive Step :=
  | ActionStep (parts : list Part)
  | OfRewardStep (r : RewardStep).

Definition Route := list Step.

Record EvaluateResult := {
  action : option Action;
  additionalSteps : option (list Step);
}.

(** What an evaluator returns: [string | EvaluateResult]. *)
Inductive Returned :=
  | Diagnostic (message : string)
  | Success (result : EvaluateResult).

(** An evaluator call: how it completes, and the state it leaves. *)
Definition Outcome : Type := Completion Returned * RouteState.

Definition Evaluator : Type := ParsedAction -> RouteLookup -> RouteState -> Outcome.

Variable EvaluateQuest : Evaluator.
Variable EvaluateQuestText : Evaluator.

Definition fail (message : string) (state : RouteState) : Outcome :=
  (Normal (Diagnostic message), state).

Definition succeed (a : Action) (state : RouteState) : Outcome :=
  (Normal (Success {| action := Some a; additionalSteps := None |}), state).

Definition throw (state : RouteState) : Outcome := (Throw TypeError, state).

(** A boss name found on [Object.prototype] gives a value that is truthy
    and not iterable: the loop over it throws before its first round. *)
Definition EvaluateKill (action : ParsedAction) (lookup : RouteLookup)
    (state : RouteState) : Outcome :=
  match action with
  | [_; bossName] =>
      match killWaypoints !! bossName with
      | Some waypointUnlocks =>
          let state :=
            set_implicitWaypoints
              (JsSet.add_all (implicitWaypoints state) waypointUnlocks) state in
          succeed (KillAction bossName) state
      | None =>
          if JsObject.is_prototype_member bossName then throw state
          else succeed (KillAction bossName) state
      end
  | _ => fail ERROR_INVALID_FORMAT state
  end.

Definition EvaluateArena (action : ParsedAction) (lookup : RouteLookup)
    (state : RouteState) : Outcome :=
  match action with
  | [_; value] => succeed (ArenaAction value) state
  | _ => fail ERROR_INVALID_FORMAT state
  end.

(** A member of [Object.prototype] is truthy and has no [id]. *)
Definition EvaluateArea (action : ParsedAction) (lookup : RouteLookup)
    (state : RouteState) : Outcome :=
  match action with
  | [_; key] =>
      match JsObject.read areas key with
      | JsObject.Absent => fail ERROR_MISSING_AREA state
      | JsObject.Inherited => succeed (AreaAction Undefined) state
      | JsObject.Own area => succeed (AreaAction (Id (area_id area))) state
      end
  | _ => fail ERROR_INVALID_FORMAT state
  end.

(** On a member of [Object.prototype] the connections read [undefined], and
    calling [some] on that throws. *)
Definition EvaluateEnter (action : ParsedAction) (lookup : RouteLookup)
    (state : RouteState) : Outcome :=
  match action with
  | [_; key] =>
      match JsObject.read areas key with
      | JsObject.Absent => fail ERROR_MISSING_AREA state
      | JsObject.Inherited => throw state
      | JsObject.Own area =>
          if negb (existsb (fun x => str_eq_slot x (currentAreaId state))
                     (connection_ids area))
          then fail "not connected to current area" state
          else
            let state :=
              if is_town_area area then
                let state := set_lastTownAreaId (area_id area) state in
                if has_waypoint area then
                  set_implicitWaypoints
                    (JsSet.add (implicitWaypoints state) (area_id area)) state
                else state
              else state in
            let state := set_currentAreaId (Id (area_id area)) state in
            succeed (EnterAction (area_id area)) state
      end
  | _ => fail ERROR_INVALID_FORMAT state
  end.

(** The area read at the current id is bound and never used. *)
Definition EvaluateTown (action : ParsedAction) (lookup : RouteLookup)
    (state : RouteState) : Outcome :=
  match action with
  | [_] =>
      let state := set_currentAreaId (Id (lastTownAreaId state)) state in
      succeed TownAction state
  | _ => fail ERROR_INVALID_FORMAT state
  end.

(** A member of [Object.prototype] has no [id] and no [has_waypoint]: as
    the target, [undefined] is looked for in the two sets of waypoints,
    which hold strings; as the current area, it has no waypoint. *)
Definition EvaluateWaypoint (action : ParsedAction) (lookup : RouteLookup)
    (state : RouteState) : Outcome :=
  match action with
  | [_] => succeed (WaypointAction None) state
  | [_; key] =>
      match JsObject.read areas key with
      | JsObject.Absent => fail ERROR_MISSING_AREA state
      | JsObject.Inherited => fail "missing target waypoint" state
      | JsObject.Own area =>
          if negb (JsSet.has (implicitWaypoints state) (area_id area))
             && negb (JsSet.has (explicitWaypoints state) (area_id area))
          then fail "missing target waypoint" state
          else
            match JsObject.read areas (to_key (currentAreaId state)) with
            | JsObject.Absent => throw state
            | JsObject.Inherited => fail ERROR_AREA_NO_WAYPOINT state
            | JsObject.Own currentArea =>
                if negb (has_waypoint currentArea)
                then fail ERROR_AREA_NO_WAYPOINT state
                else
                  let state :=
                    set_implicitWaypoints
                      (JsSet.add (implicitWaypoints state) (area_id currentArea))
                      state in
                  let state :=
                    set_usedWaypoints
                      (JsSet.add (usedWaypoints state) (area_id area)) state in
                  let state := set_currentAreaId (Id (area_id area)) state in
                  succeed (WaypointAction (Some (area_id area))) state
            end
      end
  | _ => fail ERROR_INVALID_FORMAT state
  end.

Definition EvaluateGetWaypoint (action : ParsedAction) (lookup : RouteLookup)
    (state : RouteState) : Outcome :=
  match action with
  | [_] =>
      match JsObject.read areas (to_key (currentAreaId state)) with
      | JsObject.Absent => fail ERROR_MISSING_AREA state
      | JsObject.Inherited => fail ERROR_AREA_NO_WAYPOINT state
      | JsObject.Own area =>
          if negb (has_waypoint area) then fail ERROR_AREA_NO_WAYPOINT state
          else if JsSet.has (implicitWaypoints state) (area_id area)
          then fail "waypoint already acquired" state
          else
            let state :=
              set_explicitWaypoints
                (JsSet.add (explicitWaypoints state) (area_id area)) state in
            succeed GetWaypointAction state
      end
  | _ => fail ERROR_INVALID_FORMAT state
  end.

Definition EvaluateSetPortal (action : ParsedAction) (lookup : RouteLookup)
    (state : RouteState) : Outcome :=
  match action with
  | [_] =>
      let state := set_portalAreaId (currentAreaId state) state in
      succeed SetPortalAction state
  | _ => fail ERROR_INVALID_FORMAT state
  end.

(** For a member of [Object.prototype] as the current area, [undefined] is
    compared with the anchor, a non-empty string at that point, and
    [is_town_area] reads [undefined]. *)
Definition EvaluateUsePortal (action : ParsedAction) (lookup : RouteLookup)
    (state : RouteState) : Outcome :=
  match action with
  | [_] =>
      if falsy (portalAreaId state) then fail "portal must be set" state
      else
        match JsObject.read areas (to_key (currentAreaId state)) with
        | JsObject.Absent => throw state
        | JsObject.Inherited =>
            fail "can only use portal from town or portal area" state
        | JsObject.Own currentArea =>
            if str_eq_slot (area_id currentArea) (portalAreaId state) then
              let state := set_portalAreaId (currentAreaId state) state in
              let state :=
                set_currentAreaId
                  (match towns lookup !! act currentArea with
                   | Some town => Id town
                   | None => Undefined
                   end) state in
              succeed UsePortalAction state
            else if negb (is_town_area currentArea)
            then fail "can only use portal from town or portal area" state
            else
              let state := set_currentAreaId (portalAreaId state) state in
              let state := set_portalAreaId Null state in
              succeed UsePortalAction state
        end
  | _ => fail ERROR_INVALID_FORMAT state
  end.

Definition EvaluateGeneric (action : ParsedAction) (lookup : RouteLookup)
    (state : RouteState) : Outcome :=
  match action with
  | [_; value] => succeed (GenericAction value) state
  | _ => fail ERROR_INVALID_FORMAT state
  end.

Definition EvaluateTrial (action : ParsedAction) (lookup : RouteLookup)
    (state : RouteState) : Outcome :=
  match action with
  | [_] => succeed TrialAction state
  | _ => fail ERROR_INVALID_FORMAT state
  end.

Definition expectedAreaId : string := "Labyrinth_Airlock".

(** The constant is no property name of [Object.prototype], so that
    [areas[expectedAreaId]] is an own property or [undefined]. *)
Definition EvaluateAscend (action : ParsedAction) (lookup : RouteLookup)
    (state : RouteState) : Outcome :=
  match action with
  | [_] =>
      let elsewhere : Outcome :=
        match JsObject.get areas expectedAreaId with
        | None => throw state
        | Some expectedArea =>
            fail ("must be in " +:+ dquote +:+ name expectedArea +:+ dquote) state
        end in
      match JsObject.read areas (to_key (currentAreaId state)) with
      | JsObject.Absent => throw state
      | JsObject.Inherited => elsewhere
      | JsObject.Own currentArea =>
          if negb (String.eqb (area_id currentArea) expectedAreaId) then elsewhere
          else
            let state := set_currentAreaId (Id (lastTownAreaId state)) state in
            succeed AscendAction state
      end
  | _ => fail ERROR_INVALID_FORMAT state
  end.

(** For a member of [Object.prototype] both [id] and [crafting_recipes]
    read [undefined]. *)
Definition EvaluateCrafting (action : ParsedAction) (lookup : RouteLookup)
    (state : RouteState) : Outcome :=
  if (2 <? length action)%nat then fail ERROR_INVALID_FORMAT state
  else
    let visit (id : IdSlot) (recipes : option (list string)) : Outcome :=
      let state :=
        set_craftingAreas (JsValueSet.add (craftingAreas state) id) state in
      succeed (CraftingAction recipes) state in
    if (length action =? 1)%nat then
      match JsObject.read areas (to_key (currentAreaId state)) with
      | JsObject.Absent => throw state
      | JsObject.Inherited => visit Undefined None
      | JsObject.Own area => visit (Id (area_id area)) (Some (crafting_recipes area))
      end
    else
      match JsObject.read areas (elem_key action 1) with
      | JsObject.Absent => fail ERROR_MISSING_AREA state
      | JsObject.Inherited => visit Undefined None
      | JsObject.Own area => visit (Id (area_id area)) (Some (crafting_recipes area))
      end.

Definition EvaluateDirection (action : ParsedAction) (lookup : RouteLookup)
    (state : RouteState) : Outcome :=
  match action with
  | [_; text] =>
      let parsed := JsNumber.parseFloat text in
      if JsNumber.isNaN parsed then fail "dir value is not a number" state
      else
        let dir := JsNumber.rem parsed (JsNumber.of_Z 360) in
        let dir :=
          if JsNumber.ltb dir (JsNumber.of_Z 0)
          then JsNumber.add dir (JsNumber.of_Z 360) else dir in
        if negb (JsNumber.eqb (JsNumber.rem dir (JsNumber.of_Z 45)) (JsNumber.of_Z 0))
        then fail "dir value must be in intervals of 45" state
        else
          succeed
            (DirectionAction (JsNumber.floor (JsNumber.div dir (JsNumber.of_Z 45))))
            state
  | _ => fail ERROR_INVALID_FORMAT state
  end.

Definition evaluateAction (action : ParsedAction) (lookup : RouteLookup)
    (state : RouteState) : Outcome :=
  match action with
  | verb :: _ =>
      if String.eqb verb "kill" then EvaluateKill action lookup state
      else if String.eqb verb "arena" then EvaluateArena action lookup state
      else if String.eqb verb "area" then EvaluateArea action lookup state
      else if String.eqb verb "enter" then EvaluateEnter action lookup state
      else if String.eqb verb "town" then EvaluateTown action lookup state
      else if String.eqb verb "waypoint" then EvaluateWaypoint action lookup state
      else if String.eqb verb "get_waypoint" then EvaluateGetWaypoint action lookup state
      else if String.eqb verb "set_portal" then EvaluateSetPortal action lookup state
      else if String.eqb verb "use_portal" then EvaluateUsePortal action lookup state
      else if String.eqb verb "quest" then EvaluateQuest action lookup state
      else if String.eqb verb "quest_text" then EvaluateQuestText action lookup state
      else if String.eqb verb "generic" then EvaluateGeneric action lookup state
      else if String.eqb verb "trial" then EvaluateTrial action lookup state
      else if String.eqb verb "crafting" then EvaluateCrafting action lookup state
      else if String.eqb verb "ascend" then EvaluateAscend action lookup state
      else if String.eqb verb "dir" then EvaluateDirection action lookup state
      else fail ERROR_INVALID_FORMAT state
  | [] => fail ERROR_INVALID_FORMAT state
  end.

(** ** Initialisation *)

(** [for (const id in areas)] visits the entries of the table in order; a
    later town of an act replaces an earlier one. *)
Definition initializeRouteLookup (buildData : option BuildData) : RouteLookup :=
  {| towns :=
       foldl
         (fun (t : gmap Z string) (entry : string * Area) =>
            let area := snd entry in
            if is_town_area area then <[act area := area_id area]> t else t)
         (∅ : gmap Z string) areas;
     buildData := buildData |}.

Definition initializeRouteState : RouteState :=
  {| implicitWaypoints := JsSet.empty;
     explicitWaypoints := JsSet.empty;
     usedWaypoints := JsSet.empty;
     craftingAreas := JsValueSet.empty;
     currentAreaId := Id "1_1_1";
     lastTownAreaId := "1_1_town";
     portalAreaId := Null;
     acquiredGems := JsSet.empty |}.

(** ** The assembler: [parseRoute] *)

Definition CR : ascii := ascii_of_nat 13.
Definition LF : ascii := ascii_of_nat 10.

(** [routeSource.split] on the line-break alternation: CR LF first, then a
    lone CR, then a lone LF. *)
Fixpoint splitLines (s : string) : list string :=
  match s with
  | EmptyString => [EmptyString]
  | String c s' =>
      if Ascii.eqb c CR then
        match s' with
        | String c' s'' =>
            if Ascii.eqb c' LF then EmptyString :: splitLines s''
            else EmptyString :: splitLines s'
        | EmptyString => EmptyString :: splitLines s'
        end
      else if Ascii.eqb c LF then EmptyString :: splitLines s'
      else match splitLines s' with
           | line :: lines => String c line :: lines
           | [] => [String c EmptyString]
           end
  end.

(** A run of the assembler: how it completes, the state it leaves, and
    what it has written with [console.log]. *)
Definition Run (A : Type) : Type := Completion A * RouteState * list string.

(** The loop over the sub-steps of one line: [parts] and [additional] are
    [step.parts] and [additionalSteps] so far. *)
Fixpoint evaluateSubSteps (parsedStep : ParsedActionStep) (lookup : RouteLookup)
    (state : RouteState) (log : list string)
    (parts : list Part) (additional : list Step) : Run (list Part * list Step) :=
  match parsedStep with
  | [] => (Normal (parts, additional), state, log)
  | ParsedText text :: rest =>
      evaluateSubSteps rest lookup state log (parts ++ [TextPart text])%list additional
  | ParsedToken subStep :: rest =>
      match evaluateAction subStep lookup state with
      | (Throw e, state) => (Throw e, state, log)
      | (Normal (Diagnostic result), state) =>
          evaluateSubSteps rest lookup state
            (log ++ [result +:+ ": " +:+ join "," subStep])%list parts additional
      | (Normal (Success result), state) =>
          let parts :=
            match action result with
            | Some a => (parts ++ [ActionPart a])%list
            | None => parts
            end in
          let additional :=
            match additionalSteps result with
            | Some steps => (additional ++ steps)%list
            | None => additional
            end in
          evaluateSubSteps rest lookup state log parts additional
      end
  end.

(** The steps one line adds to its route. *)
Definition parseLine (line : string) (lookup : RouteLookup) (state : RouteState)
    (log : list string) : Run (list Step) :=
  if String.eqb line EmptyString then (Normal [], state, log)
  else
    match evaluateSubSteps (parseStep line) lookup state log [] [] with
    | (Throw e, state, log) => (Throw e, state, log)
    | (Normal (parts, additional), state, log) =>
        (Normal ((if (0 <? length parts)%nat then [ActionStep parts] else [])
                   ++ additional)%list,
         state, log)
    end.

Fixpoint parseLines (routeLines : list string) (lookup : RouteLookup)
    (state : RouteState) (log : list string) (route : Route) : Run Route :=
  match routeLines with
  | [] => (Normal route, state, log)
  | line :: rest =>
      match parseLine line lookup state log with
      | (Throw e, state, log) => (Throw e, state, log)
      | (Normal steps, state, log) =>
          parseLines rest lookup state log (route ++ steps)%list
      end
  end.

Fixpoint parseSources (routeSources : list string) (lookup : RouteLookup)
    (state : RouteState) (log : list string) (routes : list Route)
    : Run (list Route) :=
  match routeSources with
  | [] => (Normal routes, state, log)
  | routeSource :: rest =>
      match parseLines (splitLines routeSource) lookup state log [] with
      | (Throw e, state, log) => (Throw e, state, log)
      | (Normal route, state, log) =>
          parseSources rest lookup state log (routes ++ [route])%list
      end
  end.

(** [for (const waypoint of state.explicitWaypoints)]: the waypoints still
    to visit, and the log so far. *)
Fixpoint logUnusedWaypoints (waypoints : list string) (state : RouteState)
    (log : list string) : list string :=
  match waypoints with
  | [] => log
  | waypoint :: rest =>
      logUnusedWaypoints rest state
        (if negb (JsSet.has (usedWaypoints state) waypoint)
         then (log ++ ["unused waypoint " +:+ waypoint])%list else log)
  end.

(** [for (const key in areas)]: the entries still to visit, and the log so
    far. *)
Fixpoint logMissingCraftingAreas (entries : JsObject.t Area) (state : RouteState)
    (log : list string) : list string :=
  match entries with
  | [] => log
  | (_, area) :: rest =>
      logMissingCraftingAreas rest state
        (if (0 <? length (crafting_recipes area))%nat
            && negb (JsValueSet.has (craftingAreas state) (Id (area_id area)))
         then (log ++ ["missing crafting area " +:+ area_id area +:+ ", "
                         +:+ join ", " (crafting_recipes area)])%list
         else log)
  end.

(** The two loops that follow the documents. *)
Definition postPass (state : RouteState) (log : list string) : list string :=
  logMissingCraftingAreas areas state
    (logUnusedWaypoints (explicitWaypoints state) state log).

Definition parseRoute (routeSources : list string) (lookup : RouteLookup)
    (state : RouteState) : Run (list Route) :=
  match parseSources routeSources lookup state [] [] with
  | (Throw e, state, log) => (Throw e, state, log)
  | (Normal routes, state, log) =>
      (Normal routes, state, postPass state log)
  end.

(** ** Vocabulary of the properties *)

(** An evaluator is atomic when a returned diagnostic comes with the state
    it was called in. *)
Definition atomic (evaluate : Evaluator) : Prop :=
  forall action lookup state message state',
    evaluate action lookup state = (Normal (Diagnostic message), state') ->
    state' = state.

(** The id is a key of the area table. *)
Definition known (k : string) : Prop := is_Some (JsObject.get areas k).

(** Every entry of the table sits under its own id. *)
Definition keyed_by_id : Prop :=
  Forall (fun entry : string * Area => area_id (snd entry) = fst entry) areas.

(** The lookup has a town entry for the act of every area. *)
Definition towns_cover (lookup : RouteLookup) : Prop :=
  forall k a, JsObject.get areas k = Some a -> is_Some (towns lookup !! act a).

(** The town entries of the lookup name areas of the table. *)
Definition towns_known (lookup : RouteLookup) : Prop :=
  forall n t, towns lookup !! n = Some t -> known t.

(** Both: for the act of every area, a town entry that names an area of
    the table. *)
Definition towns_ok (lookup : RouteLookup) : Prop :=
  forall k a, JsObject.get areas k = Some a ->
    exists t, towns lookup !! act a = Some t /\ known t.

Definition state_ok (state : RouteState) : Prop :=
  (exists k, currentAreaId state = Id k /\ known k)
  /\ known (lastTownAreaId state)
  /\ (portalAreaId state = Null
      \/ exists p, portalAreaId state = Id p /\ known p).

Definition run_state {A : Type} (r : Run A) : RouteState := snd (fst r).

Definition preserves (P : RouteState -> Prop) (lookup : RouteLookup)
    (evaluate : Evaluator) : Prop :=
  forall action state, P state -> P (snd (evaluate action lookup state)).

(** One step of the loop of [initializeRouteLookup]. *)
Definition add_town (t : gmap Z string) (entry : string * Area) : gmap Z string :=
  if is_town_area (snd entry) then <[act (snd entry) := area_id (snd entry)]> t else t.

(** The explicit waypoints are a set: no id occurs twice. *)
Definition explicit_ok (state : RouteState) : Prop :=
  NoDup (explicitWaypoints state).

(** Every sub-step of the line is an action token, and each one, evaluated
    in the state its predecessors left, returns a diagnostic. *)
Fixpoint all_fail (parsedStep : ParsedActionStep) (lookup : RouteLookup)
    (state : RouteState) : Prop :=
  match parsedStep with
  | [] => True
  | ParsedText _ :: _ => False
  | ParsedToken subStep :: rest =>
      match evaluateAction subStep lookup state with
      | (Normal (Diagnostic _), state') => all_fail rest lookup state'
      | _ => False
      end
  end.

(** Every member of [s] is a member of [s']. *)
Definition set_subset (s s' : JsSet.t) : Prop :=
  forall x, JsSet.has s x = true -> JsSet.has s' x = true.

Definition value_set_subset (s s' : JsValueSet.t) : Prop :=
  forall x, JsValueSet.has s x = true -> JsValueSet.has s' x = true.

(** From [state] to [state'] the four sets of area ids have only gained
    members. *)
Definition sets_grow (state state' : RouteState) : Prop :=
  set_subset (implicitWaypoints state) (implicitWaypoints state')
  /\ set_subset (explicitWaypoints state) (explicitWaypoints state')
  /\ set_subset (usedWaypoints state) (usedWaypoints state')
  /\ value_set_subset (craftingAreas state) (craftingAreas state').

(** The last town is a town area of the table. *)
Definition last_town_is_town (state : RouteState) : Prop :=
  exists a, JsObject.get areas (lastTownAreaId state) = Some a
            /\ is_town_area a = true.

(** Every explicit waypoint is the id of a table area that has a waypoint. *)
Definition explicit_have_waypoints (state : RouteState) : Prop :=
  forall w, JsSet.has (explicitWaypoints state) w = true ->
    exists k a, JsObject.get areas k = Some a /\ area_id a = w
                /\ has_waypoint a = true.

(** Every visited crafting area is the id of a table area, or
    [undefined]. *)
Definition crafting_are_areas (state : RouteState) : Prop :=
  forall x, JsValueSet.has (craftingAreas state) x = true ->
    x = Undefined
    \/ exists k a, JsObject.get areas k = Some a /\ x = Id (area_id a).

(** The verbs the dispatcher knows. *)
Definition verbs : list string :=
  ["kill"; "arena"; "area"; "enter"; "town"; "waypoint"; "get_waypoint";
   "set_portal"; "use_portal"; "quest"; "quest_text"; "generic"; "trial";
   "crafting"; "ascend"; "dir"].

(** The verbs whose evaluator is in this module, by number of arguments. *)
Definition one_argument_verbs : list string :=
  ["kill"; "arena"; "area"; "enter"; "generic"; "dir"].

Definition no_argument_verbs : list string :=
  ["town"; "get_waypoint"; "set_portal"; "use_portal"; "trial"; "ascend"].

(** The verbs whose evaluator neither reads nor writes the state. *)
Definition stateless_verbs : list string :=
  ["arena"; "area"; "generic"; "trial"; "dir"].

(** Every used waypoint is an implicit or an explicit waypoint. *)
Definition used_were_known (state : RouteState) : Prop :=
  forall w, JsSet.has (usedWaypoints state) w = true ->
    JsSet.has (implicitWaypoints state) w = true
    \/ JsSet.has (explicitWaypoints state) w = true.

(** The literal fragments of a lexed line, and of the parts of a step. *)
Fixpoint parsed_texts (parsedStep : ParsedActionStep) : list string :=
  match parsedStep with
  | [] => []
  | ParsedText text :: rest => text :: parsed_texts rest
  | ParsedToken _ :: rest => parsed_texts rest
  end.

Fixpoint part_texts (parts : list Part) : list string :=
  match parts with
  | [] => []
  | TextPart text :: rest => text :: part_texts rest
  | ActionPart _ :: rest => part_texts rest
  end.

(** No field of the token is the name of a member of [Object.prototype]. *)
Definition plain_action (action : ParsedAction) : bool :=
  forallb (fun field => negb (JsObject.is_prototype_member field)) action.

Definition plain_part (part : ParsedPart) : bool :=
  match part with
  | ParsedText _ => true
  | ParsedToken action => plain_action action
  end.

(** The same of every token of every line of the document. *)
Definition plain_document (routeSource : string) : bool :=
  forallb (fun line => forallb plain_part (parseStep line))
    (splitLines routeSource).

(** The evaluator call returned a success payload. *)
Definition succeeded (outcome : Outcome) : Prop :=
  exists result state', outcome = (Normal (Success result), state').

(** ** Properties of the evaluators *)

(** *** Reading a table *)

Lemma read_own {V : Type} (o : JsObject.t V) (key : string) (v : V) :
  JsObject.get o key = Some v <-> JsObject.read o key = JsObject.Own v.
Proof.
  unfold JsObject.read. destruct (JsObject.get o key) as [v'|].
  - split; intros H; injection H as <-; reflexivity.
  - destruct (JsObject.is_prototype_member key); split; discriminate.
Qed.

Lemma read_inherited {V : Type} (o : JsObject.t V) (key : string) :
  JsObject.get o key = None /\ JsObject.is_prototype_member key = true
  <-> JsObject.read o key = JsObject.Inherited.
Proof.
  unfold JsObject.read. destruct (JsObject.get o key) as [v'|].
  - split; [intros [H _]|]; discriminate.
  - destruct (JsObject.is_prototype_member key); split;
      try discriminate; try tauto.
    intros [_ H]. discriminate.
Qed.

Lemma read_absent {V : Type} (o : JsObject.t V) (key : string) :
  JsObject.get o key = None /\ JsObject.is_prototype_member key = false
  <-> JsObject.read o key = JsObject.Absent.
Proof.
  unfold JsObject.read. destruct (JsObject.get o key) as [v'|].
  - split; [intros [H _]|]; discriminate.
  - destruct (JsObject.is_prototype_member key); split;
      try discriminate; try tauto.
    intros [_ H]. discriminate.
Qed.

Lemma set_has_add_same (s : JsSet.t) (x : string) :
  JsSet.has (JsSet.add s x) x = true.
Proof.
  unfold JsSet.add. destruct (JsSet.has s x) eqn:E; [exact E|].
  unfold JsSet.has. rewrite existsb_app. simpl.
  rewrite String.eqb_refl. apply orb_true_iff. right. reflexivity.
Qed.

Lemma set_add_idem (s : JsSet.t) (x : string) :
  JsSet.add (JsSet.add s x) x = JsSet.add s x.
Proof.
  unfold JsSet.add at 1. rewrite set_has_add_same. reflexivity.
Qed.

Lemma existsb_str_eq_slot (cur : string) (l : list string) :
  In cur l -> existsb (fun x => str_eq_slot x (Id cur)) l = true.
Proof.
  intros H. apply existsb_exists. exists cur. split; [exact H|].
  simpl. apply String.eqb_refl.
Qed.

(** C1: an [enter] whose argument names an area of the table that lists the
    current area among its connections succeeds; the new current area and
    the [Enter] action carry the target's id; a town target becomes the
    last town, and joins the implicit waypoints when it has a waypoint. *)
Theorem enter_connected (key cur : string) (area : Area) (lookup : RouteLookup)
    (state : RouteState) :
  JsObject.get areas key = Some area ->
  currentAreaId state = Id cur ->
  In cur (connection_ids area) ->
  exists state',
    evaluateAction ["enter"; key] lookup state
      = (Normal (Success {| action := Some (EnterAction (area_id area));
                            additionalSteps := None |}), state')
    /\ currentAreaId state' = Id (area_id area)
    /\ (is_town_area area = true ->
        lastTownAreaId state' = area_id area
        /\ (has_waypoint area = true ->
            implicitWaypoints state'
              = JsSet.add (implicitWaypoints state) (area_id area)
            /\ JsSet.has (implicitWaypoints state') (area_id area) = true)).
Proof.
  intros Hget Hcur Hconn.
  unfold evaluateAction. cbn [String.eqb Ascii.eqb Bool.eqb].
  unfold EvaluateEnter. rewrite (proj1 (read_own _ _ _) Hget), Hcur.
  rewrite (existsb_str_eq_slot _ _ Hconn). cbn [negb].
  eexists. split; [reflexivity|].
  split; [reflexivity|].
  intros Htown. rewrite Htown. split.
  - destruct (has_waypoint area); reflexivity.
  - intros Hwp. rewrite Hwp. cbn. split; [reflexivity|apply set_has_add_same].
Qed.

(** C5: a [waypoint] to an area of the table that is in neither the
    implicit nor the explicit waypoint set returns "missing target
    waypoint" and leaves the whole state as it was. *)
Theorem waypoint_missing_target (key : string) (area : Area)
    (lookup : RouteLookup) (state : RouteState) :
  JsObject.get areas key = Some area ->
  JsSet.has (implicitWaypoints state) (area_id area) = false ->
  JsSet.has (explicitWaypoints state) (area_id area) = false ->
  evaluateAction ["waypoint"; key] lookup state
    = (Normal (Diagnostic "missing target waypoint"), state).
Proof.
  intros Hget Himp Hexp.
  unfold evaluateAction. cbn [String.eqb Ascii.eqb Bool.eqb].
  unfold EvaluateWaypoint.
  rewrite (proj1 (read_own _ _ _) Hget), Himp, Hexp. reflexivity.
Qed.

(** C8: where the current area exists, has a waypoint and is not an
    implicit waypoint, [get_waypoint] succeeds twice in a row; each call
    adds the current area to the explicit waypoints (the second addition
    finds it there already). *)
Theorem get_waypoint_twice (cur : string) (area : Area) (lookup : RouteLookup)
    (state : RouteState) :
  currentAreaId state = Id cur ->
  JsObject.get areas cur = Some area ->
  has_waypoint area = true ->
  JsSet.has (implicitWaypoints state) (area_id area) = false ->
  exists state1 state2,
    evaluateAction ["get_waypoint"] lookup state
      = (Normal (Success {| action := Some GetWaypointAction;
                            additionalSteps := None |}), state1)
    /\ explicitWaypoints state1
         = JsSet.add (explicitWaypoints state) (area_id area)
    /\ evaluateAction ["get_waypoint"] lookup state1
         = (Normal (Success {| action := Some GetWaypointAction;
                               additionalSteps := None |}), state2)
    /\ explicitWaypoints state2
         = JsSet.add (explicitWaypoints state1) (area_id area)
    /\ JsSet.has (explicitWaypoints state2) (area_id area) = true.
Proof.
  intros Hcur Hget Hwp Himp.
  unfold evaluateAction. cbn [String.eqb Ascii.eqb Bool.eqb].
  apply read_own in Hget.
  unfold EvaluateGetWaypoint. rewrite Hcur. cbn [to_key].
  rewrite Hget, Hwp, Himp. cbn [negb].
  eexists. eexists. split; [reflexivity|].
  split; [reflexivity|].
  cbn [currentAreaId set_explicitWaypoints implicitWaypoints to_key].
  rewrite Hcur. cbn [to_key]. rewrite Hget, Hwp, Himp. cbn [negb].
  split; [reflexivity|].
  split; [reflexivity|].
  cbn. apply set_has_add_same.
Qed.

(** Turn what is known of the reads into facts on the own properties. *)
Ltac own_reads :=
  repeat match goal with
         | H : JsObject.read _ _ = JsObject.Own _ |- _ => apply read_own in H
         | H : JsObject.read _ _ = JsObject.Inherited |- _ =>
             apply read_inherited in H; destruct H
         | H : JsObject.read _ _ = JsObject.Absent |- _ =>
             apply read_absent in H; destruct H
         end.

(** *** Error atomicity *)

Ltac solve_atomic :=
  intros action lookup state message state' H;
  unfold fail, succeed, throw in H; cbv zeta in H;
  repeat case_match; simplify_eq; reflexivity.

Lemma EvaluateKill_atomic : atomic EvaluateKill.
Proof. unfold atomic, EvaluateKill. solve_atomic. Qed.

Lemma EvaluateArena_atomic : atomic EvaluateArena.
Proof. unfold atomic, EvaluateArena. solve_atomic. Qed.

Lemma EvaluateArea_atomic : atomic EvaluateArea.
Proof. unfold atomic, EvaluateArea. solve_atomic. Qed.

Lemma EvaluateEnter_atomic : atomic EvaluateEnter.
Proof. unfold atomic, EvaluateEnter. solve_atomic. Qed.

Lemma EvaluateTown_atomic : atomic EvaluateTown.
Proof. unfold atomic, EvaluateTown. solve_atomic. Qed.

Lemma EvaluateWaypoint_atomic : atomic EvaluateWaypoint.
Proof. unfold atomic, EvaluateWaypoint. solve_atomic. Qed.

Lemma EvaluateGetWaypoint_atomic : atomic EvaluateGetWaypoint.
Proof. unfold atomic, EvaluateGetWaypoint. solve_atomic. Qed.

Lemma EvaluateSetPortal_atomic : atomic EvaluateSetPortal.
Proof. unfold atomic, EvaluateSetPortal. solve_atomic. Qed.

Lemma EvaluateUsePortal_atomic : atomic EvaluateUsePortal.
Proof. unfold atomic, EvaluateUsePortal. solve_atomic. Qed.

Lemma EvaluateGeneric_atomic : atomic EvaluateGeneric.
Proof. unfold atomic, EvaluateGeneric. solve_atomic. Qed.

Lemma EvaluateTrial_atomic : atomic EvaluateTrial.
Proof. unfold atomic, EvaluateTrial. solve_atomic. Qed.

Lemma EvaluateAscend_atomic : atomic EvaluateAscend.
Proof. unfold atomic, EvaluateAscend. solve_atomic. Qed.

Lemma EvaluateCrafting_atomic : atomic EvaluateCrafting.
Proof. unfold atomic, EvaluateCrafting. solve_atomic. Qed.

Lemma EvaluateDirection_atomic : atomic EvaluateDirection.
Proof. unfold atomic, EvaluateDirection. solve_atomic. Qed.

(** Error atomicity of the evaluators of this module: whatever the verb,
    unless it is [quest] or [quest_text], whose evaluators live elsewhere,
    a diagnostic from [evaluateAction] comes with every field of the state
    as it was before the call. *)
Theorem own_evaluators_atomic (action : ParsedAction) (lookup : RouteLookup)
    (state state' : RouteState) (message : string) :
  hd_error action <> Some "quest" ->
  hd_error action <> Some "quest_text" ->
  evaluateAction action lookup state = (Normal (Diagnostic message), state') ->
  state' = state.
Proof.
  intros HQ HQT H.
  unfold evaluateAction in H.
  destruct action as [|verb rest]; [unfold fail in H; congruence|].
  destruct (String.eqb verb "quest") eqn:Equest.
  { apply String.eqb_eq in Equest as ->. destruct HQ. reflexivity. }
  destruct (String.eqb verb "quest_text") eqn:Etext.
  { apply String.eqb_eq in Etext as ->. destruct HQT. reflexivity. }
  repeat match type of H with
         | (if ?b then _ else _) = _ => destruct b
         end;
    eauto using EvaluateKill_atomic, EvaluateArena_atomic, EvaluateArea_atomic,
      EvaluateEnter_atomic, EvaluateTown_atomic, EvaluateWaypoint_atomic,
      EvaluateGetWaypoint_atomic, EvaluateSetPortal_atomic,
      EvaluateUsePortal_atomic, EvaluateGeneric_atomic, EvaluateTrial_atomic,
      EvaluateAscend_atomic, EvaluateCrafting_atomic, EvaluateDirection_atomic.
  unfold fail in H. congruence.
Qed.

(** *** The portal round trip *)

(** C2: from a non-town area [A] of the table, [set_portal] then
    [use_portal] lead to the town of [A]'s act with the anchor still at
    [A]; a second [use_portal] leads back to [A] and clears the anchor; a
    third one returns "portal must be set" and changes nothing. *)
Theorem portal_round_trip (k t : string) (A T : Area) (lookup : RouteLookup)
    (state : RouteState) :
  JsObject.get areas k = Some A -> area_id A = k -> k <> EmptyString ->
  is_town_area A = false ->
  towns lookup !! act A = Some t ->
  JsObject.get areas t = Some T -> area_id T = t -> is_town_area T = true ->
  currentAreaId state = Id k -> portalAreaId state = Null ->
  exists state1 state2 state3,
    evaluateAction ["set_portal"] lookup state
      = (Normal (Success {| action := Some SetPortalAction;
                            additionalSteps := None |}), state1)
    /\ currentAreaId state1 = Id k
    /\ evaluateAction ["use_portal"] lookup state1
         = (Normal (Success {| action := Some UsePortalAction;
                               additionalSteps := None |}), state2)
    /\ currentAreaId state2 = Id t /\ portalAreaId state2 = Id k
    /\ evaluateAction ["use_portal"] lookup state2
         = (Normal (Success {| action := Some UsePortalAction;
                               additionalSteps := None |}), state3)
    /\ currentAreaId state3 = Id k /\ portalAreaId state3 = Null
    /\ evaluateAction ["use_portal"] lookup state3
         = (Normal (Diagnostic "portal must be set"), state3).
Proof.
  intros HA HAid Hk HAtown Ht HT HTid HTtown Hcur Hportal.
  assert (Hkne : String.eqb k EmptyString = false)
    by (apply String.eqb_neq; exact Hk).
  assert (Htk : String.eqb t k = false).
  { apply String.eqb_neq. intros ->. rewrite HA in HT. congruence. }
  apply read_own in HA. apply read_own in HT.
  unfold evaluateAction. cbn [String.eqb Ascii.eqb Bool.eqb].
  unfold EvaluateSetPortal, EvaluateUsePortal, succeed, fail.
  do 3 eexists.
  split; [reflexivity|]. split; [exact Hcur|].
  cbn [portalAreaId currentAreaId set_portalAreaId set_currentAreaId].
  rewrite Hcur. cbn [falsy to_key str_eq_slot]. rewrite Hkne, HA, HAid.
  rewrite String.eqb_refl, Ht.
  split; [reflexivity|]. split; [reflexivity|]. split; [reflexivity|].
  cbn [portalAreaId currentAreaId set_portalAreaId set_currentAreaId
       falsy to_key str_eq_slot].
  rewrite Hkne, HT, HTid, Htk, HTtown. cbn [negb].
  split; [reflexivity|]. split; [reflexivity|]. split; [reflexivity|].
  reflexivity.
Qed.

(** *** The state invariant *)

Lemma get_In (o : JsObject.t Area) (k : string) (a : Area) :
  JsObject.get o k = Some a -> In (k, a) o.
Proof.
  induction o as [|[k' a'] o IH]; simpl; [discriminate|].
  destruct (String.eqb k' k) eqn:E.
  - apply String.eqb_eq in E. intros [= ->]. left. congruence.
  - intros H. right. auto.
Qed.

Lemma In_known (o : JsObject.t Area) (k : string) (a : Area) :
  In (k, a) o -> is_Some (JsObject.get o k).
Proof.
  induction o as [|[k' a'] o IH]; simpl; [tauto|].
  intros [H|H]; destruct (String.eqb k' k) eqn:E; eauto.
  injection H as -> ->. rewrite String.eqb_refl in E. discriminate.
Qed.

Lemma keyed_get (k : string) (a : Area) :
  keyed_by_id -> JsObject.get areas k = Some a -> area_id a = k.
Proof.
  intros Hkeyed Hget. apply get_In in Hget.
  unfold keyed_by_id in Hkeyed. rewrite Forall_forall in Hkeyed.
  apply list_elem_of_In in Hget. exact (Hkeyed _ Hget).
Qed.

Lemma keyed_known (k : string) (a : Area) :
  keyed_by_id -> JsObject.get areas k = Some a -> known (area_id a).
Proof.
  intros Hkeyed Hget. rewrite (keyed_get _ _ Hkeyed Hget).
  unfold known. rewrite Hget. eauto.
Qed.

Lemma towns_ok_intro (lookup : RouteLookup) :
  towns_cover lookup -> towns_known lookup -> towns_ok lookup.
Proof.
  intros Hcover Hknown k a Hget.
  destruct (Hcover k a Hget) as [t Ht]. exists t. split; [exact Ht|].
  exact (Hknown _ _ Ht).
Qed.

Section Invariant.

Variable lookup : RouteLookup.
Hypothesis Hkeyed : keyed_by_id.
Hypothesis Htowns : towns_ok lookup.

Ltac start_preserves :=
  intros action state (Hcur & Hlast & Hportal);
  unfold fail, succeed, throw; cbv zeta;
  repeat case_match; own_reads;
  unfold set_implicitWaypoints, set_explicitWaypoints, set_usedWaypoints,
    set_craftingAreas, set_currentAreaId, set_lastTownAreaId, set_portalAreaId;
  unfold state_ok; simpl; try (repeat split; assumption).

Lemma EvaluateKill_state_ok : preserves state_ok lookup EvaluateKill.
Proof. unfold preserves, EvaluateKill. start_preserves. Qed.

Lemma EvaluateArena_state_ok : preserves state_ok lookup EvaluateArena.
Proof. unfold preserves, EvaluateArena. start_preserves. Qed.

Lemma EvaluateArea_state_ok : preserves state_ok lookup EvaluateArea.
Proof. unfold preserves, EvaluateArea. start_preserves. Qed.

Lemma EvaluateEnter_state_ok : preserves state_ok lookup EvaluateEnter.
Proof.
  unfold preserves, EvaluateEnter. start_preserves;
    (split; [eauto using keyed_known|]); split; eauto using keyed_known.
Qed.

Lemma EvaluateTown_state_ok : preserves state_ok lookup EvaluateTown.
Proof.
  unfold preserves, EvaluateTown. start_preserves.
  split; [eauto|]. split; assumption.
Qed.

Lemma EvaluateWaypoint_state_ok : preserves state_ok lookup EvaluateWaypoint.
Proof.
  unfold preserves, EvaluateWaypoint. start_preserves.
  split; [eauto using keyed_known|]. split; assumption.
Qed.

Lemma EvaluateGetWaypoint_state_ok : preserves state_ok lookup EvaluateGetWaypoint.
Proof. unfold preserves, EvaluateGetWaypoint. start_preserves. Qed.

Lemma EvaluateSetPortal_state_ok : preserves state_ok lookup EvaluateSetPortal.
Proof.
  unfold preserves, EvaluateSetPortal. start_preserves.
  split; [assumption|]. split; [assumption|]. right. exact Hcur.
Qed.

Lemma EvaluateUsePortal_state_ok : preserves state_ok lookup EvaluateUsePortal.
Proof.
  unfold preserves, EvaluateUsePortal. start_preserves.
  - destruct (Htowns _ _ ltac:(eassumption)) as (t & Ht & Hknown).
    split; [exists t; split; [congruence|exact Hknown]|].
    split; [assumption|]. right. exact Hcur.
  - destruct (Htowns _ _ ltac:(eassumption)) as (t & Ht & Hknown). congruence.
  - destruct Hportal as [Hnull|(anchor & Hanchor & Hknown)].
    + rewrite Hnull in *. simpl in *. discriminate.
    + split; [eauto|]. split; [assumption|]. left. reflexivity.
Qed.

Lemma EvaluateGeneric_state_ok : preserves state_ok lookup EvaluateGeneric.
Proof. unfold preserves, EvaluateGeneric. start_preserves. Qed.

Lemma EvaluateTrial_state_ok : preserves state_ok lookup EvaluateTrial.
Proof. unfold preserves, EvaluateTrial. start_preserves. Qed.

Lemma EvaluateAscend_state_ok : preserves state_ok lookup EvaluateAscend.
Proof.
  unfold preserves, EvaluateAscend. start_preserves.
  split; [eauto|]. split; assumption.
Qed.

Lemma EvaluateCrafting_state_ok : preserves state_ok lookup EvaluateCrafting.
Proof. unfold preserves, EvaluateCrafting. start_preserves. Qed.

Lemma EvaluateDirection_state_ok : preserves state_ok lookup EvaluateDirection.
Proof. unfold preserves, EvaluateDirection. start_preserves. Qed.

Lemma evaluateAction_state_ok :
  preserves state_ok lookup EvaluateQuest ->
  preserves state_ok lookup EvaluateQuestText ->
  preserves state_ok lookup evaluateAction.
Proof.
  intros HQ HQT action state Hok.
  unfold evaluateAction.
  destruct action as [|verb rest]; [exact Hok|].
  repeat match goal with
         | |- context [if ?b then _ else _] => destruct b
         end;
    try exact Hok;
    eauto using EvaluateKill_state_ok, EvaluateArena_state_ok,
      EvaluateArea_state_ok, EvaluateEnter_state_ok, EvaluateTown_state_ok,
      EvaluateWaypoint_state_ok, EvaluateGetWaypoint_state_ok,
      EvaluateSetPortal_state_ok, EvaluateUsePortal_state_ok,
      EvaluateGeneric_state_ok, EvaluateTrial_state_ok,
      EvaluateAscend_state_ok, EvaluateCrafting_state_ok,
      EvaluateDirection_state_ok.
Qed.

End Invariant.

(** *** Properties carried through a whole run *)

Section RunInvariant.

Variable P : RouteState -> Prop.
Variable lookup : RouteLookup.
Hypothesis HP : preserves P lookup evaluateAction.

Lemma evaluateSubSteps_preserves (parsedStep : ParsedActionStep) :
  forall state log parts additional,
    P state ->
    P (run_state (evaluateSubSteps parsedStep lookup state log parts additional)).
Proof.
  induction parsedStep as [|part rest IH]; intros state log parts additional Hs.
  - exact Hs.
  - destruct part as [text|subStep]; simpl.
    + apply IH. exact Hs.
    + pose proof (HP subStep state Hs) as Hnext.
      destruct (evaluateAction subStep lookup state) as [[[message|result]|e] state'];
        simpl in Hnext.
      * apply IH. exact Hnext.
      * apply IH. exact Hnext.
      * exact Hnext.
Qed.

Lemma parseLine_preserves (line : string) (state : RouteState) (log : list string) :
  P state -> P (run_state (parseLine line lookup state log)).
Proof.
  intros Hs. unfold parseLine.
  destruct (String.eqb line EmptyString); [exact Hs|].
  pose proof (evaluateSubSteps_preserves (parseStep line) state log [] [] Hs) as H.
  destruct (evaluateSubSteps (parseStep line) lookup state log [] [])
    as [[[[parts additional]|e] state'] log']; exact H.
Qed.

Lemma parseLines_preserves (routeLines : list string) :
  forall state log route,
    P state -> P (run_state (parseLines routeLines lookup state log route)).
Proof.
  induction routeLines as [|line rest IH]; intros state log route Hs.
  - exact Hs.
  - simpl. pose proof (parseLine_preserves line state log Hs) as H.
    destruct (parseLine line lookup state log) as [[[steps|e] state'] log'].
    + apply IH. exact H.
    + exact H.
Qed.

Lemma parseSources_preserves (routeSources : list string) :
  forall state log routes,
    P state -> P (run_state (parseSources routeSources lookup state log routes)).
Proof.
  induction routeSources as [|routeSource rest IH]; intros state log routes Hs.
  - exact Hs.
  - simpl.
    pose proof (parseLines_preserves (splitLines routeSource) state log [] Hs) as H.
    destruct (parseLines (splitLines routeSource) lookup state log [])
      as [[[route|e] state'] log'].
    + apply IH. exact H.
    + exact H.
Qed.

Lemma parseRoute_preserves (routeSources : list string) (state : RouteState) :
  P state -> P (run_state (parseRoute routeSources lookup state)).
Proof.
  intros Hs. unfold parseRoute.
  pose proof (parseSources_preserves routeSources state [] [] Hs) as H.
  destruct (parseSources routeSources lookup state [] [])
    as [[[routes|e] state'] log']; exact H.
Qed.

End RunInvariant.

(** C3: with the seeded starting area and starting town in the table, and
    a lookup that has a town entry for the act of every area, the initial
    state names existing areas in its current-area and last-town slots and
    has no portal anchor, and every evaluator call, hence every run of
    [parseRoute] from the initial state, keeps the current area and the
    last town in the table, and the portal anchor, when there is one, in
    the table.  The table is keyed by id, as the data model has it, and the
    town entries are ids of the table, as [initializeRouteLookup] makes
    them; the quest evaluators are taken to preserve the invariant. *)
Theorem state_invariant (lookup : RouteLookup) :
  keyed_by_id -> towns_known lookup ->
  known "1_1_1" -> known "1_1_town" -> towns_cover lookup ->
  preserves state_ok lookup EvaluateQuest ->
  preserves state_ok lookup EvaluateQuestText ->
  state_ok initializeRouteState
  /\ (forall action state,
        state_ok state -> state_ok (snd (evaluateAction action lookup state)))
  /\ (forall routeSources,
        state_ok (run_state (parseRoute routeSources lookup initializeRouteState))).
Proof.
  intros Hkeyed Hknown Hstart Htown Hcover HQ HQT.
  pose proof (towns_ok_intro lookup Hcover Hknown) as Htowns.
  assert (Hinit : state_ok initializeRouteState).
  { split; [exists "1_1_1"; split; [reflexivity|exact Hstart]|].
    split; [exact Htown|]. left. reflexivity. }
  assert (Hstep : preserves state_ok lookup evaluateAction)
    by (apply evaluateAction_state_ok; assumption).
  split; [exact Hinit|]. split; [exact Hstep|].
  intros routeSources. apply parseRoute_preserves; assumption.
Qed.

(** *** The lookup built from the table *)

Lemma initializeRouteLookup_towns (buildData : option BuildData) :
  towns (initializeRouteLookup buildData) = foldl add_town (∅ : gmap Z string) areas.
Proof. reflexivity. Qed.

Lemma foldl_add_town_source (entries : JsObject.t Area) :
  forall (acc : gmap Z string) (n : Z) (town : string),
    foldl add_town acc entries !! n = Some town ->
    acc !! n = Some town
    \/ exists k t, In (k, t) entries /\ is_town_area t = true
                   /\ act t = n /\ area_id t = town.
Proof.
  induction entries as [|[k t] rest IH]; intros acc n town H; simpl in H.
  - left. exact H.
  - destruct (IH _ _ _ H) as [Hacc|(k' & t' & Hin & Htown & Hact & Hid)].
    + unfold add_town in Hacc. simpl in Hacc.
      destruct (is_town_area t) eqn:Et; [|left; exact Hacc].
      destruct (decide (act t = n)) as [Heq|Hne].
      * subst n. rewrite lookup_insert_eq in Hacc. injection Hacc as <-.
        right. exists k, t. simpl. auto.
      * rewrite lookup_insert_ne in Hacc by exact Hne. left. exact Hacc.
    + right. exists k', t'. simpl. auto.
Qed.

Lemma foldl_add_town_keeps (entries : JsObject.t Area) :
  forall (acc : gmap Z string) (n : Z),
    is_Some (acc !! n) -> is_Some (foldl add_town acc entries !! n).
Proof.
  induction entries as [|[k t] rest IH]; intros acc n H; simpl; [exact H|].
  apply IH. unfold add_town. simpl.
  destruct (is_town_area t); [|exact H].
  destruct (decide (act t = n)) as [Heq|Hne].
  - subst n. rewrite lookup_insert_eq. eauto.
  - rewrite lookup_insert_ne by exact Hne. exact H.
Qed.

Lemma foldl_add_town_has (entries : JsObject.t Area) :
  forall (acc : gmap Z string) (k : string) (t : Area),
    In (k, t) entries -> is_town_area t = true ->
    is_Some (foldl add_town acc entries !! act t).
Proof.
  induction entries as [|[k' t'] rest IH]; intros acc k t Hin Htown; simpl.
  - destruct Hin.
  - destruct Hin as [Heq|Hin]; [|eapply IH; eassumption].
    injection Heq as -> ->. apply foldl_add_town_keeps.
    unfold add_town. simpl. rewrite Htown, lookup_insert_eq. eauto.
Qed.

(** The town entries that [initializeRouteLookup] writes are ids of the
    table. *)
Lemma initializeRouteLookup_towns_known (buildData : option BuildData) :
  keyed_by_id -> towns_known (initializeRouteLookup buildData).
Proof.
  intros Hkeyed n t Ht. rewrite initializeRouteLookup_towns in Ht.
  destruct (foldl_add_town_source _ _ _ _ Ht)
    as [Hempty|(k & a & Hin & _ & _ & Hid)].
  - rewrite lookup_empty in Hempty. discriminate.
  - unfold keyed_by_id in Hkeyed. rewrite Forall_forall in Hkeyed.
    pose proof (Hkeyed (k, a) ltac:(apply list_elem_of_In; exact Hin)) as Hk.
    simpl in Hk. rewrite <- Hid, Hk. exact (In_known _ _ _ Hin).
Qed.

(** When every act that has an area also has a town, the lookup that
    [initializeRouteLookup] builds satisfies [towns_ok]. *)
Lemma initializeRouteLookup_towns_ok (buildData : option BuildData) :
  keyed_by_id ->
  (forall k a, In (k, a) areas ->
     exists k' t, In (k', t) areas /\ is_town_area t = true /\ act t = act a) ->
  towns_ok (initializeRouteLookup buildData).
Proof.
  intros Hkeyed Hall k a Hget.
  destruct (Hall _ _ (get_In _ _ _ Hget)) as (k' & t & Hin & Htown & Hact).
  rewrite initializeRouteLookup_towns.
  destruct (foldl_add_town_has areas ∅ k' t Hin Htown) as [town Hsome].
  rewrite Hact in Hsome. exists town. split; [exact Hsome|].
  destruct (foldl_add_town_source _ _ _ _ Hsome)
    as [Hempty|(k2 & t2 & Hin2 & _ & _ & Hid)].
  - rewrite lookup_empty in Hempty. discriminate.
  - unfold keyed_by_id in Hkeyed. rewrite Forall_forall in Hkeyed.
    pose proof (Hkeyed (k2, t2) ltac:(apply list_elem_of_In; exact Hin2)) as Hk.
    simpl in Hk. rewrite <- Hid, Hk. exact (In_known _ _ _ Hin2).
Qed.

(** *** The post-pass *)

Lemma set_has_elem_of (s : JsSet.t) (x : string) :
  JsSet.has s x = true <-> x ∈ s.
Proof.
  unfold JsSet.has. rewrite existsb_exists. split.
  - intros (y & Hin & Heq). apply String.eqb_eq in Heq. subst y.
    apply list_elem_of_In. exact Hin.
  - intros Hin. exists x. split; [apply list_elem_of_In; exact Hin|].
    apply String.eqb_refl.
Qed.

Lemma set_add_NoDup (s : JsSet.t) (x : string) :
  NoDup s -> NoDup (JsSet.add s x).
Proof.
  intros Hs. unfold JsSet.add. destruct (JsSet.has s x) eqn:E; [exact Hs|].
  apply NoDup_app. split; [exact Hs|]. split.
  - intros y Hy Hx. apply list_elem_of_singleton in Hx. subst y.
    apply set_has_elem_of in Hy. congruence.
  - apply NoDup_singleton.
Qed.

Lemma evaluateAction_explicit_ok (lookup : RouteLookup) :
  preserves explicit_ok lookup EvaluateQuest ->
  preserves explicit_ok lookup EvaluateQuestText ->
  preserves explicit_ok lookup evaluateAction.
Proof.
  intros HQ HQT action state Hok.
  unfold evaluateAction.
  destruct action as [|verb rest]; [exact Hok|].
  repeat match goal with
         | |- context [if String.eqb ?a ?b then _ else _] =>
             destruct (String.eqb a b)
         end;
    try exact Hok; try (apply HQ; exact Hok); try (apply HQT; exact Hok);
    unfold EvaluateKill, EvaluateArena, EvaluateArea, EvaluateEnter,
      EvaluateTown, EvaluateWaypoint, EvaluateGetWaypoint, EvaluateSetPortal,
      EvaluateUsePortal, EvaluateGeneric, EvaluateTrial, EvaluateAscend,
      EvaluateCrafting, EvaluateDirection, fail, succeed, throw;
    cbv zeta; repeat case_match;
    unfold explicit_ok, set_implicitWaypoints, set_explicitWaypoints,
      set_usedWaypoints, set_craftingAreas, set_currentAreaId,
      set_lastTownAreaId, set_portalAreaId;
    simpl; auto using set_add_NoDup.
Qed.

Lemma logUnusedWaypoints_spec (state : RouteState) (waypoints : list string) :
  forall log,
    logUnusedWaypoints waypoints state log
    = (log ++ map (fun waypoint => "unused waypoint " +:+ waypoint)
                (filter (is_unused state) waypoints))%list.
Proof.
  induction waypoints as [|w rest IH]; intros log; simpl.
  - rewrite app_nil_r. reflexivity.
  - rewrite IH, filter_cons.
    destruct (decide (is_unused state w)) as [Hu|Hu]; unfold is_unused in Hu.
    + rewrite Hu. simpl. rewrite <- app_assoc. reflexivity.
    + apply not_false_is_true in Hu. rewrite Hu. reflexivity.
Qed.

Lemma logMissingCraftingAreas_spec (state : RouteState) (entries : JsObject.t Area) :
  forall log,
    logMissingCraftingAreas entries state log
    = (log ++ map (fun area => "missing crafting area " +:+ area_id area +:+ ", "
                               +:+ join ", " (crafting_recipes area))
                (filter (is_missing_crafting state) (map snd entries)))%list.
Proof.
  induction entries as [|[k area] rest IH]; intros log;
    cbn [logMissingCraftingAreas map snd].
  - rewrite app_nil_r. reflexivity.
  - rewrite IH, filter_cons.
    destruct (decide (is_missing_crafting state area)) as [Hm|Hm];
      unfold is_missing_crafting in Hm.
    + destruct Hm as [Hrecipes Hhas]. rewrite Hhas.
      replace (0 <? length (crafting_recipes area))%nat with true
        by (destruct (crafting_recipes area); [congruence|reflexivity]).
      cbn [negb andb map]. rewrite <- app_assoc. reflexivity.
    + replace ((0 <? length (crafting_recipes area))%nat
               && negb (JsValueSet.has (craftingAreas state) (Id (area_id area))))
        with false; [reflexivity|].
      destruct (crafting_recipes area) as [|r rs] eqn:E; [reflexivity|].
      destruct (JsValueSet.has (craftingAreas state) (Id (area_id area))) eqn:Eh;
        [reflexivity|].
      exfalso. apply Hm. split; congruence.
Qed.

Lemma join_concat (sep : string) (xs : list string) :
  join sep xs = String.concat sep xs.
Proof.
  induction xs as [|x xs IH]; [reflexivity|].
  destruct xs as [|y ys]; [reflexivity|].
  change (x +:+ sep +:+ join sep (y :: ys)
          = x +:+ sep +:+ String.concat sep (y :: ys)).
  rewrite IH. reflexivity.
Qed.

(** C9: when [parseRoute] completes, the routes and the state are those of
    the loop over the documents, and what follows the documents' log is
    exactly: for each id of the explicit waypoints that is not a used
    waypoint, one line that reads "unused waypoint " and the id; then, for
    each entry of the area table that has recipes and whose id is not a
    visited crafting area, one line that reads "missing crafting area ",
    the id, ", " and the recipes separated by ", ".  The explicit waypoints
    are a [Set]: no id occurs twice in them, whoever added it. *)
Theorem post_pass_diagnostics (routeSources : list string) (lookup : RouteLookup)
    (state state' : RouteState) (routes : list Route) (log : list string) :
  explicit_ok state ->
  preserves explicit_ok lookup EvaluateQuest ->
  preserves explicit_ok lookup EvaluateQuestText ->
  parseRoute routeSources lookup state = (Normal routes, state', log) ->
  exists (docLog unused : list string) (missing : list Area),
    parseSources routeSources lookup state [] [] = (Normal routes, state', docLog)
    /\ log = (docLog
              ++ map (fun waypoint => "unused waypoint " +:+ waypoint) unused
              ++ map (fun area => "missing crafting area " +:+ area_id area
                                  +:+ ", "
                                  +:+ String.concat ", " (crafting_recipes area))
                   missing)%list
    /\ NoDup unused
    /\ (forall waypoint,
          waypoint ∈ unused <->
          waypoint ∈ explicitWaypoints state'
          /\ JsSet.has (usedWaypoints state') waypoint = false)
    /\ missing = filter (is_missing_crafting state') (map snd areas).
Proof.
  intros Hok HQ HQT Hrun.
  pose proof (parseSources_preserves explicit_ok lookup
                (evaluateAction_explicit_ok lookup HQ HQT)
                routeSources state [] [] Hok) as Hfinal.
  unfold parseRoute in Hrun.
  destruct (parseSources routeSources lookup state [] [])
    as [[[routes0|e] state0] log0]; [|discriminate].
  injection Hrun as <- <- <-.
  unfold run_state in Hfinal. simpl in Hfinal.
  exists log0, (filter (is_unused state0) (explicitWaypoints state0)),
    (filter (is_missing_crafting state0) (map snd areas)).
  split; [reflexivity|]. split.
  - unfold postPass.
    rewrite logMissingCraftingAreas_spec, logUnusedWaypoints_spec.
    rewrite <- app_assoc. do 2 f_equal.
  - split; [apply NoDup_filter; exact Hfinal|]. split; [|reflexivity].
    intros waypoint. rewrite list_elem_of_filter. unfold is_unused. tauto.
Qed.

(** *** Characters of more than one byte *)

Lemma length_append (s t : string) :
  String.length (s +:+ t) = (String.length s + String.length t)%nat.
Proof. induction s as [|c s IH]; simpl; [reflexivity|rewrite IH; reflexivity]. Qed.

Lemma append_empty_r (s : string) : s +:+ EmptyString = s.
Proof.
  induction s as [|c s IH]; [reflexivity|].
  change (String c (s +:+ EmptyString) = String c s). f_equal. exact IH.
Qed.

Lemma append_assoc (a b c : string) : (a +:+ b) +:+ c = a +:+ (b +:+ c).
Proof.
  induction a as [|x a IH]; [reflexivity|].
  change (String x ((a +:+ b) +:+ c) = String x (a +:+ (b +:+ c))).
  f_equal. exact IH.
Qed.

Lemma prefix_length (w : string) :
  forall s, String.prefix w s = true -> (String.length w <= String.length s)%nat.
Proof.
  induction w as [|a w IH]; intros s H; [simpl; lia|].
  destruct s as [|c s]; [discriminate|]. cbn [String.prefix] in H.
  destruct (Ascii.ascii_dec a c); [|discriminate].
  specialize (IH s H). simpl. lia.
Qed.

Lemma prefix_take (w : string) :
  forall s, String.prefix w s = true -> take_string (String.length w) s = w.
Proof.
  induction w as [|a w IH]; intros s H; [destruct s; reflexivity|].
  destruct s as [|c s]; [discriminate|]. cbn [String.prefix] in H.
  destruct (Ascii.ascii_dec a c) as [->|]; [|discriminate].
  simpl. rewrite (IH s H). reflexivity.
Qed.

(** A character of [w] cannot straddle the seam before a byte that [w]
    does not hold. *)
Lemma prefix_no_straddle (b : ascii) (w : string) :
  all_chars (fun c => negb (Ascii.eqb c b)) w = true ->
  forall s r, String.prefix w (s +:+ String b r) = String.prefix w s.
Proof.
  induction w as [|a w IH]; intros Hw s r; [destruct s; reflexivity|].
  cbn [all_chars] in Hw. apply andb_true_iff in Hw as [Ha Hw].
  destruct s as [|c s].
  - change (EmptyString +:+ String b r) with (String b r). cbn [String.prefix].
    destruct (Ascii.ascii_dec a b) as [->|]; [|reflexivity].
    rewrite Ascii.eqb_refl in Ha. discriminate.
  - change (String c s +:+ String b r) with (String c (s +:+ String b r)).
    cbn [String.prefix]. destruct (Ascii.ascii_dec a c); [|reflexivity].
    apply IH. exact Hw.
Qed.

Lemma width_of_found (chars : list string) (s : string) (n : nat) :
  width_of chars s = S n ->
  exists w, In w chars /\ String.prefix w s = true /\ String.length w = S n.
Proof.
  unfold width_of.
  destruct (List.find (fun w => String.prefix w s) chars) as [w|] eqn:E;
    [|discriminate].
  intros H. apply List.find_some in E as [Hin Hp]. eauto.
Qed.

Lemma width_of_le (chars : list string) (s : string) :
  (width_of chars s <= String.length s)%nat.
Proof.
  destruct (width_of chars s) as [|n] eqn:E; [lia|].
  destruct (width_of_found _ _ _ E) as (w & _ & Hp & Hl).
  rewrite <- Hl. apply prefix_length. exact Hp.
Qed.

Lemma width_of_take (chars : list string) (s : string) (n : nat) :
  width_of chars s = S n -> In (take_string (S n) s) chars.
Proof.
  intros E. destruct (width_of_found _ _ _ E) as (w & Hin & Hp & Hl).
  rewrite <- Hl, (prefix_take _ _ Hp). exact Hin.
Qed.

Lemma width_of_no_straddle (chars : list string) (b : ascii) (s r : string) :
  avoids b chars = true ->
  width_of chars (s +:+ String b r) = width_of chars s.
Proof.
  unfold width_of, avoids. induction chars as [|w chars IH]; intros H; [reflexivity|].
  cbn [forallb] in H. apply andb_true_iff in H as [Hw H].
  cbn [List.find]. rewrite (prefix_no_straddle b w Hw).
  destruct (String.prefix w s); [reflexivity|]. apply IH. exact H.
Qed.

Lemma width_of_avoided (chars : list string) (b : ascii) (r : string) :
  avoids b chars = true -> width_of chars (String b r) = 0%nat.
Proof.
  intros H. pose proof (width_of_no_straddle chars b EmptyString r H) as E.
  change (EmptyString +:+ String b r) with (String b r) in E.
  pose proof (width_of_le chars EmptyString) as Hle. simpl in Hle. lia.
Qed.

Lemma chars_run_le (chars : list string) :
  forall s k, (chars_run chars k s <= String.length s)%nat.
Proof.
  induction s as [|c s IH]; intros k; cbn [chars_run String.length]; [lia|].
  destruct k as [|k].
  - destruct (width_of chars (String c s)) as [|w]; [lia|].
    specialize (IH w). lia.
  - specialize (IH k). lia.
Qed.

Lemma chars_run_no_straddle (chars : list string) (b : ascii) :
  avoids b chars = true ->
  forall s k r,
    (k <= String.length s)%nat ->
    chars_run chars k (s +:+ String b r) = chars_run chars k s.
Proof.
  intros Hb. induction s as [|c s IH]; intros k r Hk.
  - simpl in Hk. assert (k = 0%nat) as -> by lia.
    change (EmptyString +:+ String b r) with (String b r).
    cbn [chars_run]. rewrite (width_of_avoided _ _ _ Hb). reflexivity.
  - pose proof (width_of_no_straddle chars b (String c s) r Hb) as Hw.
    change (String c s +:+ String b r) with (String c (s +:+ String b r)) in *.
    cbn [chars_run]. destruct k as [|k].
    + rewrite Hw. destruct (width_of chars (String c s)) as [|w] eqn:E;
        [reflexivity|].
      f_equal. apply IH.
      pose proof (width_of_le chars (String c s)) as Hle. simpl in Hle. lia.
    + f_equal. apply IH. simpl in Hk. lia.
Qed.

(** What holds of every byte of every character of [chars] holds of every
    byte of a run of them. *)
Lemma chars_run_all (q : ascii -> bool) (chars : list string) :
  forallb (all_chars q) chars = true ->
  forall s k,
    all_chars q (take_string k s) = true ->
    chars_run chars k s = String.length s ->
    all_chars q s = true.
Proof.
  intros Hq. induction s as [|c s IH]; intros k Hk Hrun; [reflexivity|].
  cbn [chars_run String.length] in Hrun.
  destruct k as [|k].
  - destruct (width_of chars (String c s)) as [|w] eqn:E; [discriminate|].
    injection Hrun as Hrun.
    pose proof (width_of_take _ _ _ E) as Hin.
    pose proof (proj1 (forallb_forall _ _) Hq _ Hin) as Hw.
    cbn [take_string all_chars] in Hw. apply andb_true_iff in Hw as [Hc Hw].
    cbn [all_chars]. rewrite Hc. apply (IH w); assumption.
  - injection Hrun as Hrun.
    cbn [take_string all_chars] in Hk. apply andb_true_iff in Hk as [Hc Hk].
    cbn [all_chars]. rewrite Hc. apply (IH k); assumption.
Qed.

Lemma all_space_length (s : string) :
  all_space s = true <-> space_run s = String.length s.
Proof. unfold all_space. apply Nat.eqb_eq. Qed.

Lemma not_all_space_length (s : string) :
  all_space s = false -> (space_run s < String.length s)%nat.
Proof.
  unfold all_space. intros H. apply Nat.eqb_neq in H.
  pose proof (chars_run_le white_space s 0). unfold space_run in *. lia.
Qed.

Lemma all_space_text (s : string) :
  all_space s = true -> all_chars text_char s = true.
Proof.
  intros H. apply all_space_length in H.
  apply (chars_run_all text_char white_space) with (k := 0%nat);
    [vm_compute; reflexivity|reflexivity|exact H].
Qed.

Lemma space_run_before (b : ascii) (s r : string) :
  avoids b white_space = true ->
  space_run (s +:+ String b r) = space_run s.
Proof.
  intros Hb. unfold space_run. apply chars_run_no_straddle; [exact Hb|lia].
Qed.

Lemma no_line_terminator_length (s : string) :
  no_line_terminator s = true <-> line_run s = String.length s.
Proof. unfold no_line_terminator. apply Nat.eqb_eq. Qed.

Lemma no_line_terminator_cons (c : ascii) (s : string) :
  no_line_terminator (String c s) = true
  <-> line_terminator_width (String c s) = 0%nat /\ no_line_terminator s = true.
Proof.
  rewrite !no_line_terminator_length. cbn [line_run String.length].
  destruct (line_terminator_width (String c s)); split.
  - intros H. injection H as H. split; [reflexivity|exact H].
  - intros [_ H]. rewrite H. reflexivity.
  - discriminate.
  - intros [H _]. discriminate.
Qed.

Lemma line_terminator_width_before (b : ascii) (s r : string) :
  avoids b line_terminators = true ->
  line_terminator_width (s +:+ String b r) = line_terminator_width s.
Proof. apply width_of_no_straddle. Qed.

(** *** The lexer on comment and white space lines *)

Lemma run_length_all (p : ascii -> bool) (s : string) :
  all_chars p s = true -> run_length p s = String.length s.
Proof.
  induction s as [|c s IH]; simpl; [reflexivity|].
  intros H. apply andb_true_iff in H as [Hc Hs]. rewrite Hc, IH by exact Hs.
  reflexivity.
Qed.

Lemma run_length_stop (p : ascii -> bool) (s : string) (c : ascii) (rest : string) :
  all_chars p s = true -> p c = false ->
  run_length p (s +:+ String c rest) = String.length s.
Proof.
  induction s as [|c' s IH]; simpl; intros Hs Hc.
  - rewrite Hc. reflexivity.
  - apply andb_true_iff in Hs as [Hc' Hs]. rewrite Hc', IH by assumption.
    reflexivity.
Qed.

Lemma drop_string_app (s t : string) :
  drop_string (String.length s) (s +:+ t) = t.
Proof.
  induction s as [|c s IH]; simpl; [destruct t; reflexivity|exact IH].
Qed.

Lemma drop_string_all (s : string) :
  drop_string (String.length s) s = EmptyString.
Proof.
  induction s as [|c s IH]; simpl; [reflexivity|exact IH].
Qed.

Lemma take_string_all (s : string) : take_string (String.length s) s = s.
Proof.
  induction s as [|c s IH]; simpl; [reflexivity|rewrite IH; reflexivity].
Qed.

Lemma all_chars_impl (p q : ascii -> bool) (s : string) :
  (forall c, p c = true -> q c = true) ->
  all_chars p s = true -> all_chars q s = true.
Proof.
  intros Hpq. induction s as [|c s IH]; simpl; [reflexivity|].
  intros H. apply andb_true_iff in H as [Hc Hs].
  rewrite (Hpq _ Hc), IH by exact Hs. reflexivity.
Qed.

Lemma match_all_skip (s : string) :
  forall k, (String.length s <= k)%nat -> match_all k s = [].
Proof.
  induction s as [|c s IH]; intros k Hk; simpl; [reflexivity|].
  simpl in Hk. destruct k as [|k]; [lia|]. apply IH. lia.
Qed.

Lemma match_all_whole (s : string) (m : RegexMatch) (n : nat) :
  s <> EmptyString -> match_at s = Some (m, n) -> (String.length s <= n)%nat ->
  match_all 0 s = [m].
Proof.
  intros Hne Hm Hn. destruct s as [|c s]; [congruence|].
  cbn [match_all]. rewrite Hm. rewrite match_all_skip; [reflexivity|].
  simpl in Hn. lia.
Qed.

Lemma parseStep_comment_only (line : string) :
  comment_only line -> parseStep line = [].
Proof.
  intros (ws & rest & -> & Hws & Hrest).
  apply all_space_length in Hws. apply no_line_terminator_length in Hrest.
  assert (Hcomment : comment_at (ws +:+ String "#" rest)
                     = Some (String.length ws + 1 + String.length rest)%nat).
  { unfold comment_at.
    rewrite (space_run_before "#" ws rest) by (vm_compute; reflexivity).
    rewrite Hws, drop_string_app. cbn [Ascii.eqb Bool.eqb].
    rewrite Hrest. reflexivity. }
  unfold parseStep.
  rewrite (match_all_whole _
             (CommentMatch
                (take_string (String.length ws + 1 + String.length rest)
                   (ws +:+ String "#" rest)))
             (String.length ws + 1 + String.length rest)).
  - reflexivity.
  - destruct ws; discriminate.
  - unfold match_at. rewrite Hcomment. reflexivity.
  - rewrite length_append. simpl. lia.
Qed.

Lemma parseStep_white_space (line : string) :
  line <> EmptyString -> all_space line = true ->
  parseStep line = [ParsedText line].
Proof.
  intros Hne Hws.
  assert (Hcomment : comment_at line = None).
  { unfold comment_at. rewrite (proj1 (all_space_length _) Hws), drop_string_all.
    reflexivity. }
  assert (Htext : run_length text_char line = String.length line).
  { apply run_length_all. exact (all_space_text _ Hws). }
  unfold parseStep.
  rewrite (match_all_whole _ (TextMatch line) (String.length line)).
  - reflexivity.
  - exact Hne.
  - unfold match_at. rewrite Hcomment, Htext, take_string_all.
    destruct line; [congruence|]. reflexivity.
  - reflexivity.
Qed.

(** The lines of a document hold no carriage return and no line feed. *)
Lemma splitLines_no_line_break (n : nat) :
  forall s line,
    (String.length s <= n)%nat -> In line (splitLines s) ->
    all_chars not_line_break line = true.
Proof.
  induction n as [|n IH]; intros s line Hlen Hin.
  - destruct s; [|simpl in Hlen; lia].
    destruct Hin as [<-|[]]. reflexivity.
  - destruct s as [|c s]; [destruct Hin as [<-|[]]; reflexivity|].
    simpl in Hlen. cbn [splitLines] in Hin.
    destruct (Ascii.eqb c CR) eqn:Ecr.
    + destruct s as [|c' s'].
      * destruct Hin as [<-|Hin]; [reflexivity|].
        apply (IH EmptyString); [simpl; lia|exact Hin].
      * destruct (Ascii.eqb c' LF).
        -- destruct Hin as [<-|Hin]; [reflexivity|].
           apply (IH s'); [simpl in Hlen; lia|exact Hin].
        -- destruct Hin as [<-|Hin]; [reflexivity|].
           apply (IH (String c' s')); [lia|exact Hin].
    + destruct (Ascii.eqb c LF) eqn:Elf.
      * destruct Hin as [<-|Hin]; [reflexivity|].
        apply (IH s); [lia|exact Hin].
      * assert (Hc : not_line_break c = true).
        { destruct c as [[] [] [] [] [] [] [] []]; try reflexivity;
            vm_compute in Ecr, Elf; discriminate. }
        destruct (splitLines s) as [|first others] eqn:Es.
        -- destruct Hin as [<-|[]]. simpl. rewrite Hc. reflexivity.
        -- destruct Hin as [<-|Hin].
           ++ simpl. rewrite Hc. simpl.
              apply (IH s); [lia|rewrite Es; left; reflexivity].
           ++ apply (IH s); [lia|rewrite Es; right; exact Hin].
Qed.

(** *** What one line contributes *)

Lemma evaluateSubSteps_all_fail (parsedStep : ParsedActionStep) (lookup : RouteLookup) :
  forall state log parts additional,
    all_fail parsedStep lookup state ->
    exists state' log',
      evaluateSubSteps parsedStep lookup state log parts additional
      = (Normal (parts, additional), state', log').
Proof.
  induction parsedStep as [|part rest IH]; intros state log parts additional H.
  - simpl. eauto.
  - destruct part as [text|subStep]; simpl in *; [destruct H|].
    destruct (evaluateAction subStep lookup state) as [[[message|result]|e] state'];
      try destruct H.
    apply IH. exact H.
Qed.

(** C7, as the code has it: an empty line, a line that is only a comment
    (optional white space, [#], and no line terminator after it), and a
    line made only of action tokens that all return a diagnostic contribute
    no step; a non-empty line of white space contributes one step whose
    only part is that white space; in general the line's step is there
    exactly when it has a part, and the queued additional steps follow
    it. *)
Theorem line_contribution (line : string) (lookup : RouteLookup)
    (state : RouteState) (log : list string) :
  (line = EmptyString \/ comment_only line ->
   parseLine line lookup state log = (Normal [], state, log))
  /\ (all_fail (parseStep line) lookup state ->
      exists state' log',
        parseLine line lookup state log = (Normal [], state', log'))
  /\ (line <> EmptyString -> all_space line = true ->
      parseLine line lookup state log
      = (Normal [ActionStep [TextPart line]], state, log))
  /\ (forall steps state' log',
        line <> EmptyString ->
        parseLine line lookup state log = (Normal steps, state', log') ->
        exists parts additional,
          evaluateSubSteps (parseStep line) lookup state log [] []
          = (Normal (parts, additional), state', log')
          /\ steps = (match parts with
                      | [] => []
                      | _ :: _ => [ActionStep parts]
                      end ++ additional)%list).
Proof.
  repeat split.
  - intros [->|Hcomment]; [reflexivity|].
    unfold parseLine. rewrite (parseStep_comment_only _ Hcomment).
    destruct (String.eqb line EmptyString); reflexivity.
  - intros Hfail. unfold parseLine.
    destruct (String.eqb line EmptyString); [eauto|].
    destruct (evaluateSubSteps_all_fail _ _ state log [] [] Hfail)
      as (state' & log' & ->).
    simpl. eauto.
  - intros Hne Hws. unfold parseLine.
    apply String.eqb_neq in Hne. rewrite Hne.
    apply String.eqb_neq in Hne.
    rewrite (parseStep_white_space _ Hne Hws). reflexivity.
  - intros steps state' log' Hne Hrun. unfold parseLine in Hrun.
    apply String.eqb_neq in Hne. rewrite Hne in Hrun.
    destruct (evaluateSubSteps (parseStep line) lookup state log [] [])
      as [[[[parts additional]|e] state0] log0]; [|discriminate].
    injection Hrun as <- <- <-.
    exists parts, additional. split; [reflexivity|].
    destruct parts; reflexivity.
Qed.

(** *** When the evaluators return *)

(** With the current area and the labyrinth entry in the table, and quest
    evaluators that return, no evaluator throws on a token none of whose
    fields is the name of a member of [Object.prototype]. *)
Lemma evaluateAction_returns (lookup : RouteLookup) :
  known expectedAreaId ->
  (forall action state, exists r state',
      EvaluateQuest action lookup state = (Normal r, state')) ->
  (forall action state, exists r state',
      EvaluateQuestText action lookup state = (Normal r, state')) ->
  forall action state,
    plain_action action = true ->
    known (to_key (currentAreaId state)) ->
    exists r state', evaluateAction action lookup state = (Normal r, state').
Proof.
  intros Hexpected HQ HQT action state Hplain Hcur.
  unfold known in Hexpected, Hcur.
  unfold evaluateAction.
  destruct action as [|verb rest]; [unfold fail; eauto|].
  repeat match goal with
         | |- context [if String.eqb ?a ?b then _ else _] =>
             destruct (String.eqb a b)
         end;
    try apply HQ; try apply HQT;
    unfold EvaluateKill, EvaluateArena, EvaluateArea, EvaluateEnter,
      EvaluateTown, EvaluateWaypoint, EvaluateGetWaypoint, EvaluateSetPortal,
      EvaluateUsePortal, EvaluateGeneric, EvaluateTrial, EvaluateAscend,
      EvaluateCrafting, EvaluateDirection, fail, succeed, throw;
    cbv zeta; repeat case_match; eauto; own_reads;
    match goal with
    | K : is_Some None |- _ => destruct K; discriminate
    | H : JsObject.get areas _ = None, K : is_Some (JsObject.get areas _) |- _ =>
        rewrite H in K; destruct K; discriminate
    | H : JsObject.is_prototype_member _ = true, P : plain_action _ = true |- _ =>
        unfold plain_action in P; cbn [forallb] in P; rewrite H in P;
        cbn [negb andb] in P; rewrite ?andb_false_r in P; discriminate
    end.
Qed.

(** ** Further properties of the evaluators *)

Lemma set_has_add (s : JsSet.t) (x y : string) :
  JsSet.has (JsSet.add s x) y = JsSet.has s y || String.eqb y x.
Proof.
  unfold JsSet.add. destruct (JsSet.has s x) eqn:E.
  - destruct (String.eqb y x) eqn:Eyx; [|rewrite orb_false_r; reflexivity].
    apply String.eqb_eq in Eyx. subst y. rewrite E. reflexivity.
  - unfold JsSet.has. rewrite existsb_app. simpl. rewrite orb_false_r.
    reflexivity.
Qed.

Lemma set_has_add_all (xs : list string) :
  forall (s : JsSet.t) (y : string),
    JsSet.has (JsSet.add_all s xs) y = JsSet.has s y || existsb (String.eqb y) xs.
Proof.
  unfold JsSet.add_all.
  induction xs as [|x xs IH]; intros s y; simpl.
  - rewrite orb_false_r. reflexivity.
  - rewrite IH, set_has_add, orb_assoc. reflexivity.
Qed.

Lemma set_subset_refl (s : JsSet.t) : set_subset s s.
Proof. intros x H. exact H. Qed.

Lemma set_subset_add (s : JsSet.t) (x : string) : set_subset s (JsSet.add s x).
Proof. intros y H. rewrite set_has_add, H. reflexivity. Qed.

Lemma set_subset_add_all (s : JsSet.t) (xs : list string) :
  set_subset s (JsSet.add_all s xs).
Proof. intros y H. rewrite set_has_add_all, H. reflexivity. Qed.

Lemma same_value_eq (x y : IdSlot) : JsValueSet.same_value x y = true <-> x = y.
Proof.
  destruct x as [a| |], y as [b| |]; simpl; split; try congruence;
    try reflexivity.
  - intros H. apply String.eqb_eq in H. congruence.
  - intros [= ->]. apply String.eqb_refl.
Qed.

Lemma same_value_refl (x : IdSlot) : JsValueSet.same_value x x = true.
Proof. apply same_value_eq. reflexivity. Qed.

Lemma value_set_has_add (s : JsValueSet.t) (x y : IdSlot) :
  JsValueSet.has (JsValueSet.add s x) y
  = JsValueSet.has s y || JsValueSet.same_value y x.
Proof.
  unfold JsValueSet.add. destruct (JsValueSet.has s x) eqn:E.
  - destruct (JsValueSet.same_value y x) eqn:Eyx;
      [|rewrite orb_false_r; reflexivity].
    apply same_value_eq in Eyx. subst y. rewrite E. reflexivity.
  - unfold JsValueSet.has. rewrite existsb_app. simpl. rewrite orb_false_r.
    reflexivity.
Qed.

Lemma value_set_subset_refl (s : JsValueSet.t) : value_set_subset s s.
Proof. intros x H. exact H. Qed.

Lemma value_set_subset_add (s : JsValueSet.t) (x : IdSlot) :
  value_set_subset s (JsValueSet.add s x).
Proof. intros y H. rewrite value_set_has_add, H. reflexivity. Qed.

Lemma sets_grow_refl (state : RouteState) : sets_grow state state.
Proof.
  repeat split; apply set_subset_refl || apply value_set_subset_refl.
Qed.

Lemma sets_grow_trans (s1 s2 s3 : RouteState) :
  sets_grow s1 s2 -> sets_grow s2 s3 -> sets_grow s1 s3.
Proof.
  intros (A1 & A2 & A3 & A4) (B1 & B2 & B3 & B4).
  repeat split; intros x H; auto.
Qed.

Ltac unfold_evaluators :=
  unfold EvaluateKill, EvaluateArena, EvaluateArea, EvaluateEnter,
    EvaluateTown, EvaluateWaypoint, EvaluateGetWaypoint, EvaluateSetPortal,
    EvaluateUsePortal, EvaluateGeneric, EvaluateTrial, EvaluateAscend,
    EvaluateCrafting, EvaluateDirection, fail, succeed, throw;
  cbv zeta.

Ltac unfold_setters :=
  unfold set_implicitWaypoints, set_explicitWaypoints, set_usedWaypoints,
    set_craftingAreas, set_currentAreaId, set_lastTownAreaId, set_portalAreaId.

Ltac dispatch :=
  unfold evaluateAction;
  repeat match goal with
         | |- context [if String.eqb ?a ?b then _ else _] =>
             destruct (String.eqb a b)
         end.

Lemma evaluateAction_sets_grow_step (lookup : RouteLookup) :
  (forall action state, sets_grow state (snd (EvaluateQuest action lookup state))) ->
  (forall action state, sets_grow state (snd (EvaluateQuestText action lookup state))) ->
  forall action state, sets_grow state (snd (evaluateAction action lookup state)).
Proof.
  intros HQ HQT action state.
  destruct action as [|verb rest]; [apply sets_grow_refl|].
  dispatch; try apply HQ; try apply HQT; try apply sets_grow_refl;
    unfold_evaluators; repeat case_match; own_reads; unfold_setters;
    try apply sets_grow_refl;
    unfold sets_grow; simpl;
    repeat split;
    auto using set_subset_refl, set_subset_add, set_subset_add_all,
      value_set_subset_refl, value_set_subset_add.
Qed.

(** No evaluator of this module removes an id from the implicit, explicit
    or used waypoints or from the crafting areas, and so no run of
    [parseRoute] does; the quest evaluators are taken not to either. *)
Theorem sets_only_grow (lookup : RouteLookup) :
  (forall action state, sets_grow state (snd (EvaluateQuest action lookup state))) ->
  (forall action state, sets_grow state (snd (EvaluateQuestText action lookup state))) ->
  (forall action state, sets_grow state (snd (evaluateAction action lookup state)))
  /\ (forall routeSources state,
        sets_grow state (run_state (parseRoute routeSources lookup state))).
Proof.
  intros HQ HQT.
  pose proof (evaluateAction_sets_grow_step lookup HQ HQT) as Hstep.
  split; [exact Hstep|].
  intros routeSources state.
  apply (parseRoute_preserves (sets_grow state) lookup).
  - intros action s Hs. eapply sets_grow_trans; [exact Hs|apply Hstep].
  - apply sets_grow_refl.
Qed.

(** The last town stays a town area of the table: [enter] is the only
    evaluator here that writes it, and only for a town. *)
Theorem last_town_stays_town (lookup : RouteLookup) :
  keyed_by_id ->
  preserves last_town_is_town lookup EvaluateQuest ->
  preserves last_town_is_town lookup EvaluateQuestText ->
  preserves last_town_is_town lookup evaluateAction
  /\ (forall routeSources state,
        last_town_is_town state ->
        last_town_is_town (run_state (parseRoute routeSources lookup state))).
Proof.
  intros Hkeyed HQ HQT.
  assert (Hstep : preserves last_town_is_town lookup evaluateAction).
  { intros action state Hok.
    destruct action as [|verb rest]; [exact Hok|].
    dispatch; try exact Hok; try (apply HQ; exact Hok); try (apply HQT; exact Hok);
      unfold_evaluators; repeat case_match; own_reads; unfold_setters;
      unfold last_town_is_town in *; simpl; try exact Hok;
      match goal with
      | H : JsObject.get areas _ = Some ?a |- exists _, JsObject.get areas (area_id ?a) = _ /\ _ =>
          exists a; rewrite (keyed_get _ _ Hkeyed H); split; assumption
      end. }
  split; [exact Hstep|].
  intros routeSources state Hok. apply parseRoute_preserves; assumption.
Qed.

(** An area is travelled to by [waypoint] only when it is an implicit or an
    explicit waypoint: every used waypoint is one of those, throughout a
    run. *)
Theorem used_waypoints_were_known (lookup : RouteLookup) :
  preserves used_were_known lookup EvaluateQuest ->
  preserves used_were_known lookup EvaluateQuestText ->
  preserves used_were_known lookup evaluateAction
  /\ (forall routeSources,
        used_were_known
          (run_state (parseRoute routeSources lookup initializeRouteState))).
Proof.
  intros HQ HQT.
  assert (Hstep : preserves used_were_known lookup evaluateAction).
  { intros action state Hok.
    destruct action as [|verb rest]; [exact Hok|].
    dispatch; try exact Hok; try (apply HQ; exact Hok); try (apply HQT; exact Hok);
      unfold_evaluators; repeat case_match; own_reads; unfold_setters;
      unfold used_were_known in *; simpl; try exact Hok;
      intros w Hw;
      repeat rewrite set_has_add in *; repeat rewrite set_has_add_all in *;
      try (destruct (Hok w Hw) as [Hi|He]; rewrite ?Hi, ?He; auto; fail).
    apply orb_true_iff in Hw as [Hw|Hw].
    - destruct (Hok w Hw) as [Hi|He]; rewrite ?Hi, ?He; auto.
    - apply String.eqb_eq in Hw. subst w.
      match goal with
      | H : negb _ && negb _ = false |- _ =>
          apply andb_false_iff in H as [H|H]; apply negb_false_iff in H;
            rewrite H; auto
      end. }
  split; [exact Hstep|].
  intros routeSources. apply parseRoute_preserves; [exact Hstep|].
  intros w Hw. discriminate.
Qed.

(** Every explicit waypoint was acquired in an area of the table that has
    a waypoint, throughout a run. *)
Theorem explicit_waypoints_have_waypoints (lookup : RouteLookup) :
  preserves explicit_have_waypoints lookup EvaluateQuest ->
  preserves explicit_have_waypoints lookup EvaluateQuestText ->
  preserves explicit_have_waypoints lookup evaluateAction
  /\ (forall routeSources,
        explicit_have_waypoints
          (run_state (parseRoute routeSources lookup initializeRouteState))).
Proof.
  intros HQ HQT.
  assert (Hstep : preserves explicit_have_waypoints lookup evaluateAction).
  { intros action state Hok.
    destruct action as [|verb rest]; [exact Hok|].
    dispatch; try exact Hok; try (apply HQ; exact Hok); try (apply HQT; exact Hok);
      unfold_evaluators; repeat case_match; own_reads; unfold_setters;
      unfold explicit_have_waypoints in *; simpl; try exact Hok.
    intros w Hw. rewrite set_has_add in Hw.
    apply orb_true_iff in Hw as [Hw|Hw]; [exact (Hok w Hw)|].
    apply String.eqb_eq in Hw. subst w.
    match goal with
    | H : JsObject.get areas ?k = Some ?a, N : negb (has_waypoint ?a) = false |- _ =>
        exists k, a; apply negb_false_iff in N; auto
    end. }
  split; [exact Hstep|].
  intros routeSources. apply parseRoute_preserves; [exact Hstep|].
  intros w Hw. discriminate.
Qed.

(** Every visited crafting area is an area of the table, or [undefined],
    which [crafting] adds when its argument, or the current area id, names
    a member of [Object.prototype]; throughout a run. *)
Theorem crafting_areas_are_areas (lookup : RouteLookup) :
  preserves crafting_are_areas lookup EvaluateQuest ->
  preserves crafting_are_areas lookup EvaluateQuestText ->
  preserves crafting_are_areas lookup evaluateAction
  /\ (forall routeSources,
        crafting_are_areas
          (run_state (parseRoute routeSources lookup initializeRouteState))).
Proof.
  intros HQ HQT.
  assert (Hstep : preserves crafting_are_areas lookup evaluateAction).
  { intros action state Hok.
    destruct action as [|verb rest]; [exact Hok|].
    dispatch; try exact Hok; try (apply HQ; exact Hok); try (apply HQT; exact Hok);
      unfold_evaluators; repeat case_match; own_reads; unfold_setters;
      unfold crafting_are_areas in *; simpl; try exact Hok;
      intros x Hx; rewrite value_set_has_add in Hx;
      (apply orb_true_iff in Hx as [Hx|Hx]; [exact (Hok x Hx)|]);
      apply same_value_eq in Hx; subst x; eauto 6. }
  split; [exact Hstep|].
  intros routeSources. apply parseRoute_preserves; [exact Hstep|].
  intros w Hw. discriminate.
Qed.

(** *** The dispatcher *)

(** A token whose verb is none of the sixteen, and the empty token, get
    "invalid format"; the state is not touched. *)
Theorem unknown_verb_invalid_format (verb : string) (args : list string)
    (lookup : RouteLookup) (state : RouteState) :
  ~ In verb verbs ->
  evaluateAction (verb :: args) lookup state = fail ERROR_INVALID_FORMAT state
  /\ evaluateAction [] lookup state = fail ERROR_INVALID_FORMAT state.
Proof.
  intros Hverb. split; [|reflexivity].
  unfold evaluateAction.
  repeat match goal with
         | |- context [if String.eqb ?a ?b then _ else _] =>
             let E := fresh "E" in
             destruct (String.eqb a b) eqn:E;
             [apply String.eqb_eq in E; exfalso; apply Hverb; subst verb;
              unfold verbs; simpl; tauto|]
         end.
  reflexivity.
Qed.

(** A wrong number of arguments is reported as "invalid format" by every
    evaluator of this module, before anything is read or written: one
    argument exactly for kill, arena, area, enter, generic and dir; none for
    town, get_waypoint, set_portal, use_portal, trial and ascend; at most
    one for waypoint and crafting. *)
Theorem wrong_argument_count_invalid_format (verb : string) (args : list string)
    (lookup : RouteLookup) (state : RouteState) :
  (In verb one_argument_verbs /\ length args <> 1%nat)
  \/ (In verb no_argument_verbs /\ length args <> 0%nat)
  \/ ((verb = "waypoint" \/ verb = "crafting") /\ (1 < length args)%nat) ->
  evaluateAction (verb :: args) lookup state = fail ERROR_INVALID_FORMAT state.
Proof.
  unfold one_argument_verbs, no_argument_verbs. simpl.
  intros [[Hverb Hlen]|[[Hverb Hlen]|[Hverb Hlen]]];
    repeat match type of Hverb with
           | _ \/ _ => destruct Hverb as [Hverb|Hverb]
           | False => destruct Hverb
           end;
    subst verb; unfold evaluateAction; cbn [String.eqb Ascii.eqb Bool.eqb];
    unfold_evaluators;
    destruct args as [|a [|b rest]]; simpl in Hlen; try lia; try reflexivity.
Qed.

(** The evaluators of arena, area, generic, trial and dir return, and leave
    the state as it was, whatever their arguments. *)
Theorem stateless_verbs_keep_state (verb : string) (args : list string)
    (lookup : RouteLookup) (state : RouteState) :
  In verb stateless_verbs ->
  exists r, evaluateAction (verb :: args) lookup state = (Normal r, state).
Proof.
  unfold stateless_verbs. simpl. intros Hverb.
  repeat match type of Hverb with
         | _ \/ _ => destruct Hverb as [Hverb|Hverb]
         | False => destruct Hverb
         end;
    subst verb; unfold evaluateAction; cbn [String.eqb Ascii.eqb Bool.eqb];
    unfold_evaluators; repeat case_match; eauto.
Qed.

(** No evaluator of this module writes the acquired gems. *)
Theorem acquired_gems_untouched (lookup : RouteLookup) (gems : JsSet.t) :
  preserves (fun state => acquiredGems state = gems) lookup EvaluateQuest ->
  preserves (fun state => acquiredGems state = gems) lookup EvaluateQuestText ->
  preserves (fun state => acquiredGems state = gems) lookup evaluateAction
  /\ (forall routeSources state,
        acquiredGems state = gems ->
        acquiredGems (run_state (parseRoute routeSources lookup state)) = gems).
Proof.
  intros HQ HQT.
  assert (Hstep : preserves (fun state => acquiredGems state = gems) lookup
                    evaluateAction).
  { intros action state Hok.
    destruct action as [|verb rest]; [exact Hok|].
    dispatch; try exact Hok; try (apply HQ; exact Hok); try (apply HQT; exact Hok);
      unfold_evaluators; repeat case_match; own_reads; unfold_setters; simpl; exact Hok. }
  split; [exact Hstep|].
  intros routeSources state Hok.
  apply (parseRoute_preserves (fun state => acquiredGems state = gems));
    assumption.
Qed.

(** *** Runs that do not throw *)

Section RunReturns.

Variable P : RouteState -> Prop.
Variable lookup : RouteLookup.
Hypothesis HP : preserves P lookup evaluateAction.
Hypothesis HN : forall action state, plain_action action = true -> P state ->
  exists r state', evaluateAction action lookup state = (Normal r, state').

Lemma evaluateSubSteps_returns (parsedStep : ParsedActionStep) :
  forallb plain_part parsedStep = true ->
  forall state log parts additional,
    P state ->
    exists result state' log',
      evaluateSubSteps parsedStep lookup state log parts additional
      = (Normal result, state', log') /\ P state'.
Proof.
  induction parsedStep as [|part rest IH];
    intros Hplain state log parts additional Hs.
  - simpl. eauto.
  - cbn [forallb] in Hplain. apply andb_true_iff in Hplain as [Hpart Hrest].
    destruct part as [text|subStep]; simpl; [apply IH; assumption|].
    pose proof (HP subStep state Hs) as Hnext.
    destruct (HN subStep state Hpart Hs) as (r & state' & Hrun).
    rewrite Hrun in Hnext |- *. simpl in Hnext.
    destruct r as [message|result]; apply IH; assumption.
Qed.

Lemma parseLine_returns (line : string) (state : RouteState) (log : list string) :
  forallb plain_part (parseStep line) = true ->
  P state ->
  exists steps state' log',
    parseLine line lookup state log = (Normal steps, state', log') /\ P state'.
Proof.
  intros Hplain Hs. unfold parseLine.
  destruct (String.eqb line EmptyString); [eauto|].
  destruct (evaluateSubSteps_returns (parseStep line) Hplain state log [] [] Hs)
    as ([parts additional] & state' & log' & -> & Hs').
  eauto.
Qed.

Lemma parseLines_returns (routeLines : list string) :
  forallb (fun line => forallb plain_part (parseStep line)) routeLines = true ->
  forall state log route,
    P state ->
    exists route' state' log',
      parseLines routeLines lookup state log route = (Normal route', state', log')
      /\ P state'.
Proof.
  induction routeLines as [|line rest IH]; intros Hplain state log route Hs.
  - simpl. eauto.
  - cbn [forallb] in Hplain. apply andb_true_iff in Hplain as [Hline Hrest].
    simpl. destruct (parseLine_returns line state log Hline Hs)
      as (steps & state' & log' & -> & Hs').
    apply IH; assumption.
Qed.

Lemma parseSources_returns (routeSources : list string) :
  forallb plain_document routeSources = true ->
  forall state log routes,
    P state ->
    exists routes' state' log',
      parseSources routeSources lookup state log routes
      = (Normal routes', state', log').
Proof.
  induction routeSources as [|routeSource rest IH];
    intros Hplain state log routes Hs.
  - simpl. eauto.
  - cbn [forallb] in Hplain. apply andb_true_iff in Hplain as [Hdoc Hrest].
    simpl.
    destruct (parseLines_returns (splitLines routeSource) Hdoc state log [] Hs)
      as (route & state' & log' & -> & Hs').
    apply IH; assumption.
Qed.

End RunReturns.

(** On a table keyed by id that holds the starting area, the starting town
    and the labyrinth entry, with a lookup that has a town of the table for
    the act of every area, no evaluator call made in a state that satisfies
    the state invariant throws on a token none of whose fields is the name
    of a member of [Object.prototype], and [parseRoute] run from the initial
    state returns its routes for any documents that hold only such tokens.
    The quest evaluators are taken to return and to keep the invariant. *)
Theorem parseRoute_returns_from_initial_state (lookup : RouteLookup) :
  keyed_by_id -> towns_known lookup -> towns_cover lookup ->
  known "1_1_1" -> known "1_1_town" -> known expectedAreaId ->
  preserves state_ok lookup EvaluateQuest ->
  preserves state_ok lookup EvaluateQuestText ->
  (forall action state, exists r state',
      EvaluateQuest action lookup state = (Normal r, state')) ->
  (forall action state, exists r state',
      EvaluateQuestText action lookup state = (Normal r, state')) ->
  (forall action state,
      plain_action action = true ->
      state_ok state ->
      exists r state', evaluateAction action lookup state = (Normal r, state'))
  /\ (forall routeSources,
        forallb plain_document routeSources = true ->
        exists routes state' log,
          parseRoute routeSources lookup initializeRouteState
          = (Normal routes, state', log)).
Proof.
  intros Hkeyed Hknown Hcover Hstart Htown Hlab HQ HQT HQr HQTr.
  pose proof (towns_ok_intro lookup Hcover Hknown) as Htowns.
  assert (Hstep : preserves state_ok lookup evaluateAction)
    by (apply evaluateAction_state_ok; assumption).
  assert (Hret : forall action state,
            plain_action action = true -> state_ok state ->
            exists r state', evaluateAction action lookup state = (Normal r, state')).
  { intros action state Hplain ((k & Hk & Hkk) & _).
    apply evaluateAction_returns; try assumption.
    rewrite Hk. exact Hkk. }
  split; [exact Hret|].
  intros routeSources Hplain. unfold parseRoute.
  destruct (parseSources_returns state_ok lookup Hstep Hret routeSources Hplain
              initializeRouteState [] [])
    as (routes & state' & log' & ->).
  - split; [exists "1_1_1"; split; [reflexivity|exact Hstart]|].
    split; [exact Htown|]. left. reflexivity.
  - eauto.
Qed.

Lemma parseSources_length (lookup : RouteLookup) (routeSources : list string) :
  forall state log routes routes' state' log',
    parseSources routeSources lookup state log routes = (Normal routes', state', log') ->
    length routes' = (length routes + length routeSources)%nat
    /\ take (length routes) routes' = routes.
Proof.
  induction routeSources as [|routeSource rest IH];
    intros state log routes routes' state' log' Hrun; simpl in Hrun.
  - injection Hrun as <- _ _. rewrite take_ge by lia. simpl. split; [lia|reflexivity].
  - destruct (parseLines (splitLines routeSource) lookup state log [])
      as [[[route|e] state0] log0]; [|discriminate].
    apply IH in Hrun as [Hlen Htake]. rewrite length_app in Hlen, Htake.
    simpl in *. split; [lia|].
    rewrite <- (take_app_length routes [route]) at 2.
    rewrite <- Htake, take_take. f_equal. lia.
Qed.

(** When [parseRoute] returns, it returns one route per document. *)
Theorem parseRoute_one_route_per_document (routeSources : list string)
    (lookup : RouteLookup) (state state' : RouteState) (routes : list Route)
    (log : list string) :
  parseRoute routeSources lookup state = (Normal routes, state', log) ->
  length routes = length routeSources.
Proof.
  unfold parseRoute. intros Hrun.
  destruct (parseSources routeSources lookup state [] [])
    as [[[routes0|e] state0] log0] eqn:E; [|discriminate].
  injection Hrun as <- _ _.
  apply parseSources_length in E as [Hlen _]. exact Hlen.
Qed.

(** *** Text survives, whatever the tokens do *)

Lemma part_texts_app (xs ys : list Part) :
  part_texts (xs ++ ys) = (part_texts xs ++ part_texts ys)%list.
Proof.
  induction xs as [|[text|a] xs IH]; simpl; [reflexivity| |exact IH].
  rewrite IH. reflexivity.
Qed.

Lemma evaluateSubSteps_texts (parsedStep : ParsedActionStep) (lookup : RouteLookup) :
  forall state log parts additional parts' additional' state' log',
    evaluateSubSteps parsedStep lookup state log parts additional
    = (Normal (parts', additional'), state', log') ->
    part_texts parts' = (part_texts parts ++ parsed_texts parsedStep)%list.
Proof.
  induction parsedStep as [|part rest IH];
    intros state log parts additional parts' additional' state' log' Hrun;
    simpl in Hrun.
  - injection Hrun as <- _ _ _. rewrite app_nil_r. reflexivity.
  - destruct part as [text|subStep].
    + apply IH in Hrun. rewrite Hrun, part_texts_app. simpl.
      rewrite <- app_assoc. reflexivity.
    + simpl.
      destruct (evaluateAction subStep lookup state)
        as [[[message|result]|e] state0]; [| |discriminate].
      * apply IH in Hrun. exact Hrun.
      * apply IH in Hrun. rewrite Hrun.
        destruct (action result); [|reflexivity].
        rewrite part_texts_app. simpl. rewrite app_nil_r. reflexivity.
Qed.

(** The literal text of a line reaches the route whole and in order,
    whether the line's tokens succeed or fail: when a line with some text
    has been processed, its first step is an action step whose text parts
    are exactly the line's text fragments. *)
Theorem line_text_is_kept (line : string) (lookup : RouteLookup)
    (state state' : RouteState) (log log' : list string) (steps : list Step) :
  parsed_texts (parseStep line) <> [] ->
  parseLine line lookup state log = (Normal steps, state', log') ->
  exists parts rest,
    steps = ActionStep parts :: rest
    /\ part_texts parts = parsed_texts (parseStep line).
Proof.
  intros Htexts Hrun. unfold parseLine in Hrun.
  destruct (String.eqb line EmptyString) eqn:Eline.
  - apply String.eqb_eq in Eline. subst line. exfalso. apply Htexts. reflexivity.
  - destruct (evaluateSubSteps (parseStep line) lookup state log [] [])
      as [[[[parts additional]|e] state0] log0] eqn:E; [|discriminate].
    injection Hrun as <- _ _.
    apply evaluateSubSteps_texts in E. simpl in E.
    destruct parts as [|part parts].
    + simpl in E. congruence.
    + exists (part :: parts), additional. split; [reflexivity|exact E].
Qed.

(** *** When an evaluator succeeds *)

(** [enter] succeeds exactly when its argument is a key of the table and
    that area lists the current area id among its connections. *)
Theorem enter_succeeds_iff (key : string) (lookup : RouteLookup) (state : RouteState) :
  succeeded (evaluateAction ["enter"; key] lookup state)
  <-> exists area cur,
        JsObject.get areas key = Some area
        /\ currentAreaId state = Id cur
        /\ In cur (connection_ids area).
Proof.
  unfold succeeded, evaluateAction. cbn [String.eqb Ascii.eqb Bool.eqb].
  unfold_evaluators. split.
  - intros (result & state' & H).
    destruct (JsObject.read areas key) as [area| |] eqn:Eread; try discriminate.
    apply read_own in Eread.
    destruct (existsb _ (connection_ids area)) eqn:E; [|discriminate].
    apply existsb_exists in E as (x & Hin & Heq).
    destruct (currentAreaId state) as [cur| |]; try discriminate.
    simpl in Heq. apply String.eqb_eq in Heq. subst x. eauto.
  - intros (area & cur & Hget & Hcur & Hin).
    rewrite (proj1 (read_own _ _ _) Hget), Hcur, (existsb_str_eq_slot _ _ Hin).
    simpl. eauto.
Qed.

(** [waypoint] with a target succeeds exactly when the target is a key of
    the table, its id is an implicit or an explicit waypoint, and the
    current area is in the table and has a waypoint; when it succeeds the
    target is the current area and a used waypoint, the area left is an
    implicit waypoint, and the action carries the target's id. *)
Theorem waypoint_succeeds_iff (key : string) (lookup : RouteLookup)
    (state : RouteState) :
  (succeeded (evaluateAction ["waypoint"; key] lookup state)
   <-> exists area currentArea,
         JsObject.get areas key = Some area
         /\ (JsSet.has (implicitWaypoints state) (area_id area) = true
             \/ JsSet.has (explicitWaypoints state) (area_id area) = true)
         /\ JsObject.get areas (to_key (currentAreaId state)) = Some currentArea
         /\ has_waypoint currentArea = true)
  /\ (forall area currentArea,
        JsObject.get areas key = Some area ->
        JsObject.get areas (to_key (currentAreaId state)) = Some currentArea ->
        succeeded (evaluateAction ["waypoint"; key] lookup state) ->
        exists state',
          evaluateAction ["waypoint"; key] lookup state
          = succeed (WaypointAction (Some (area_id area))) state'
          /\ currentAreaId state' = Id (area_id area)
          /\ JsSet.has (usedWaypoints state') (area_id area) = true
          /\ JsSet.has (implicitWaypoints state') (area_id currentArea) = true).
Proof.
  unfold succeeded, evaluateAction. cbn [String.eqb Ascii.eqb Bool.eqb].
  unfold_evaluators. split; [split|].
  - intros (result & state' & H).
    destruct (JsObject.read areas key) as [area| |] eqn:Eread; try discriminate.
    destruct (negb (JsSet.has (implicitWaypoints state) (area_id area))
              && negb (JsSet.has (explicitWaypoints state) (area_id area)))
      eqn:E; [discriminate|].
    destruct (JsObject.read areas (to_key (currentAreaId state)))
      as [currentArea| |] eqn:Ecur; try discriminate.
    destruct (has_waypoint currentArea) eqn:Ewp; [|discriminate].
    apply read_own in Eread. apply read_own in Ecur.
    exists area, currentArea.
    split; [exact Eread|]. split.
    { apply andb_false_iff in E as [E|E]; apply negb_false_iff in E; auto. }
    split; [exact Ecur|exact Ewp].
  - intros (area & currentArea & Hget & Hknown & Hcur & Hwp).
    rewrite (proj1 (read_own _ _ _) Hget), (proj1 (read_own _ _ _) Hcur), Hwp.
    destruct Hknown as [H|H]; rewrite H; simpl; rewrite ?andb_false_r; eauto.
  - intros area currentArea Hget Hcur (result & state' & H).
    rewrite (proj1 (read_own _ _ _) Hget), (proj1 (read_own _ _ _) Hcur) in H |- *.
    destruct (negb (JsSet.has (implicitWaypoints state) (area_id area))
              && negb (JsSet.has (explicitWaypoints state) (area_id area)));
      [discriminate|].
    destruct (has_waypoint currentArea); [|discriminate].
    eexists. split; [reflexivity|]. split; [reflexivity|].
    split; simpl; apply set_has_add_same.
Qed.

(** [use_portal] succeeds exactly when an anchor is set (and is not the
    empty string), the current area is in the table, and it is either the
    anchor or a town. *)
Theorem use_portal_succeeds_iff (lookup : RouteLookup) (state : RouteState) :
  succeeded (evaluateAction ["use_portal"] lookup state)
  <-> exists anchor currentArea,
        portalAreaId state = Id anchor /\ anchor <> EmptyString
        /\ JsObject.get areas (to_key (currentAreaId state)) = Some currentArea
        /\ (area_id currentArea = anchor \/ is_town_area currentArea = true).
Proof.
  unfold succeeded, evaluateAction. cbn [String.eqb Ascii.eqb Bool.eqb].
  unfold_evaluators. split.
  - intros (result & state' & H).
    destruct (portalAreaId state) as [anchor| |] eqn:Ep; try discriminate.
    simpl in H. destruct (String.eqb anchor EmptyString) eqn:Ea; [discriminate|].
    apply String.eqb_neq in Ea.
    destruct (JsObject.read areas (to_key (currentAreaId state)))
      as [currentArea| |] eqn:Ecur; try discriminate.
    apply read_own in Ecur.
    exists anchor, currentArea. repeat split; try assumption.
    destruct (String.eqb (area_id currentArea) anchor) eqn:Eid.
    + left. apply String.eqb_eq. exact Eid.
    + right. destruct (is_town_area currentArea); [reflexivity|discriminate].
  - intros (anchor & currentArea & Hp & Hne & Hcur & Hwhere).
    rewrite Hp, (proj1 (read_own _ _ _) Hcur). simpl.
    apply String.eqb_neq in Hne. rewrite Hne.
    destruct (String.eqb (area_id currentArea) anchor) eqn:Eid; [eauto|].
    destruct Hwhere as [Hid|Htown].
    + apply String.eqb_neq in Eid. contradiction.
    + rewrite Htown. simpl. eauto.
Qed.

(** [get_waypoint] succeeds exactly when the current area is in the table,
    has a waypoint, and is not an implicit waypoint; in every other case it
    returns a diagnostic and the explicit waypoints are as they were. *)
Theorem get_waypoint_succeeds_iff (lookup : RouteLookup) (state : RouteState) :
  (succeeded (evaluateAction ["get_waypoint"] lookup state)
   <-> exists area,
         JsObject.get areas (to_key (currentAreaId state)) = Some area
         /\ has_waypoint area = true
         /\ JsSet.has (implicitWaypoints state) (area_id area) = false)
  /\ (~ succeeded (evaluateAction ["get_waypoint"] lookup state) ->
      exists message,
        evaluateAction ["get_waypoint"] lookup state
        = (Normal (Diagnostic message), state)).
Proof.
  unfold succeeded, evaluateAction. cbn [String.eqb Ascii.eqb Bool.eqb].
  unfold_evaluators.
  destruct (JsObject.read areas (to_key (currentAreaId state)))
    as [area| |] eqn:Eread.
  - apply read_own in Eread. rewrite Eread.
    destruct (has_waypoint area) eqn:Ewp; simpl.
    + destruct (JsSet.has (implicitWaypoints state) (area_id area)) eqn:Ei.
      * split; [|eauto]. split.
        -- intros (r & s & H). discriminate.
        -- intros (a & [= <-] & _ & H). congruence.
      * split; [split; eauto|]. intros H. exfalso. apply H. eauto.
    + split; [|eauto]. split.
      * intros (r & s & H). discriminate.
      * intros (a & [= <-] & H & _). congruence.
  - apply read_inherited in Eread as [Eread _]. rewrite Eread.
    split; [|eauto]. split.
    + intros (r & s & H). discriminate.
    + intros (a & H & _). discriminate.
  - apply read_absent in Eread as [Eread _]. rewrite Eread.
    split; [|eauto]. split.
    + intros (r & s & H). discriminate.
    + intros (a & H & _). discriminate.
Qed.

(** [ascend] in an area of the table succeeds exactly when that area is the
    labyrinth entry, and then moves to the last town; elsewhere, with the
    labyrinth entry in the table, it names that area in its diagnostic and
    changes nothing. *)
Theorem ascend_succeeds_iff (lookup : RouteLookup) (state : RouteState)
    (currentArea expectedArea : Area) :
  JsObject.get areas (to_key (currentAreaId state)) = Some currentArea ->
  JsObject.get areas expectedAreaId = Some expectedArea ->
  (area_id currentArea = expectedAreaId ->
   evaluateAction ["ascend"] lookup state
   = succeed AscendAction (set_currentAreaId (Id (lastTownAreaId state)) state))
  /\ (area_id currentArea <> expectedAreaId ->
      evaluateAction ["ascend"] lookup state
      = fail ("must be in " +:+ dquote +:+ name expectedArea +:+ dquote) state)
  /\ (succeeded (evaluateAction ["ascend"] lookup state)
      <-> area_id currentArea = expectedAreaId).
Proof.
  intros Hcur Hexp.
  unfold succeeded, evaluateAction. cbn [String.eqb Ascii.eqb Bool.eqb].
  unfold EvaluateAscend. cbv zeta.
  rewrite (proj1 (read_own _ _ _) Hcur), Hexp.
  destruct (String.eqb (area_id currentArea) expectedAreaId) eqn:E; simpl.
  - apply String.eqb_eq in E. repeat split; try tauto.
    unfold succeed. eauto.
  - apply String.eqb_neq in E. repeat split; try tauto.
    intros (r & s & H). discriminate.
Qed.

(** *** Kills, waypoints and crafting stops *)

(** [kill] of a boss of the unlock table, or of one whose name is no
    property name of [Object.prototype], succeeds; afterwards the implicit
    waypoints are the earlier ones and the areas the boss unlocks (none for
    a boss that is not in the unlock table), and nothing else has changed.
    For a boss that is not in the table and is named like a member of
    [Object.prototype], the loop over the unlocks throws, and the state is
    as it was. *)
Theorem kill_unlocks_waypoints (bossName : string) (lookup : RouteLookup)
    (state : RouteState) :
  (is_Some (killWaypoints !! bossName)
   \/ JsObject.is_prototype_member bossName = false ->
   exists state',
     evaluateAction ["kill"; bossName] lookup state
     = succeed (KillAction bossName) state'
     /\ (forall w,
           JsSet.has (implicitWaypoints state') w
           = JsSet.has (implicitWaypoints state) w
             || existsb (String.eqb w) (default [] (killWaypoints !! bossName)))
     /\ state = set_implicitWaypoints (implicitWaypoints state) state')
  /\ (killWaypoints !! bossName = None ->
      JsObject.is_prototype_member bossName = true ->
      evaluateAction ["kill"; bossName] lookup state = throw state).
Proof.
  unfold evaluateAction. cbn [String.eqb Ascii.eqb Bool.eqb].
  unfold EvaluateKill. split.
  - intros Hplain.
    destruct (killWaypoints !! bossName) as [unlocks|] eqn:Ekill; simpl.
    + eexists. split; [reflexivity|].
      split; [intros w; apply set_has_add_all|]. destruct state; reflexivity.
    + destruct Hplain as [[unlocks Hsome]|Hplain]; [discriminate|].
      rewrite Hplain. eexists. split; [reflexivity|].
      split; [intros w; rewrite orb_false_r; reflexivity|].
      destruct state; reflexivity.
  - intros Hnone Hmember. rewrite Hnone, Hmember. reflexivity.
Qed.

(** A kill that unlocks an area makes it reachable: from an area with a
    waypoint, [kill] followed by [waypoint] to an area the boss unlocks
    succeeds and arrives there. *)
Theorem kill_then_waypoint (bossName key : string) (unlocks : list string)
    (target currentArea : Area) (lookup : RouteLookup) (state : RouteState) :
  killWaypoints !! bossName = Some unlocks ->
  JsObject.get areas key = Some target ->
  In (area_id target) unlocks ->
  JsObject.get areas (to_key (currentAreaId state)) = Some currentArea ->
  has_waypoint currentArea = true ->
  exists state1 state2,
    evaluateAction ["kill"; bossName] lookup state
    = succeed (KillAction bossName) state1
    /\ evaluateAction ["waypoint"; key] lookup state1
       = succeed (WaypointAction (Some (area_id target))) state2
    /\ currentAreaId state2 = Id (area_id target)
    /\ JsSet.has (usedWaypoints state2) (area_id target) = true.
Proof.
  intros Hkill Hget Hin Hcur Hwp.
  apply read_own in Hget. apply read_own in Hcur.
  unfold evaluateAction. cbn [String.eqb Ascii.eqb Bool.eqb].
  unfold EvaluateKill, EvaluateWaypoint. rewrite Hkill.
  do 2 eexists. split; [reflexivity|].
  rewrite Hget. cbn [implicitWaypoints set_implicitWaypoints currentAreaId
                     explicitWaypoints].
  rewrite set_has_add_all.
  assert (Hex : existsb (String.eqb (area_id target)) unlocks = true).
  { apply existsb_exists. exists (area_id target).
    split; [exact Hin|apply String.eqb_refl]. }
  rewrite Hex, orb_true_r. cbn [negb andb]. rewrite Hcur, Hwp. cbn [negb].
  split; [reflexivity|]. split; [reflexivity|].
  simpl. apply set_has_add_same.
Qed.

Lemma value_set_has_add_same (s : JsValueSet.t) (x : IdSlot) :
  JsValueSet.has (JsValueSet.add s x) x = true.
Proof. rewrite value_set_has_add, same_value_refl. apply orb_true_r. Qed.

(** [crafting] records the named area of the table, or the current one
    when no area is named, as visited and returns its recipes; the area is
    then no longer one the post-pass would report.  A name that is neither
    a key of the table nor a property name of [Object.prototype] is
    reported as a missing area.  A name of a member of [Object.prototype]
    that is no key of the table is accepted: the call succeeds without
    recipes and records [undefined], which clears no area of the table. *)
Theorem crafting_marks_area (lookup : RouteLookup) (state : RouteState) :
  (forall key area,
     JsObject.get areas key = Some area ->
     exists state',
       evaluateAction ["crafting"; key] lookup state
       = succeed (CraftingAction (Some (crafting_recipes area))) state'
       /\ JsValueSet.has (craftingAreas state') (Id (area_id area)) = true
       /\ ~ is_missing_crafting state' area)
  /\ (forall area,
        JsObject.get areas (to_key (currentAreaId state)) = Some area ->
        exists state',
          evaluateAction ["crafting"] lookup state
          = succeed (CraftingAction (Some (crafting_recipes area))) state'
          /\ JsValueSet.has (craftingAreas state') (Id (area_id area)) = true
          /\ ~ is_missing_crafting state' area)
  /\ (forall key,
        JsObject.get areas key = None ->
        JsObject.is_prototype_member key = false ->
        evaluateAction ["crafting"; key] lookup state
        = fail ERROR_MISSING_AREA state)
  /\ (forall key,
        JsObject.get areas key = None ->
        JsObject.is_prototype_member key = true ->
        exists state',
          evaluateAction ["crafting"; key] lookup state
          = succeed (CraftingAction None) state'
          /\ craftingAreas state'
             = JsValueSet.add (craftingAreas state) Undefined
          /\ (forall area,
                is_missing_crafting state area -> is_missing_crafting state' area)).
Proof.
  unfold evaluateAction. cbn [String.eqb Ascii.eqb Bool.eqb].
  unfold EvaluateCrafting. cbv zeta. simpl.
  split; [|split; [|split]].
  - intros key area Hget. unfold elem_key. simpl.
    rewrite (proj1 (read_own _ _ _) Hget).
    eexists. split; [reflexivity|].
    pose proof (value_set_has_add_same (craftingAreas state) (Id (area_id area)))
      as H.
    split; [exact H|]. intros [_ Hmiss]. simpl in Hmiss. congruence.
  - intros area Hget. rewrite (proj1 (read_own _ _ _) Hget).
    eexists. split; [reflexivity|].
    pose proof (value_set_has_add_same (craftingAreas state) (Id (area_id area)))
      as H.
    split; [exact H|]. intros [_ Hmiss]. simpl in Hmiss. congruence.
  - intros key Hget Hmember. unfold elem_key. simpl.
    rewrite (proj1 (read_absent _ _) (conj Hget Hmember)). reflexivity.
  - intros key Hget Hmember. unfold elem_key. simpl.
    rewrite (proj1 (read_inherited _ _) (conj Hget Hmember)).
    eexists. split; [reflexivity|]. split; [reflexivity|].
    intros area [Hrecipes Hhas]. split; [exact Hrecipes|].
    simpl. rewrite value_set_has_add, Hhas. reflexivity.
Qed.

(** What the names of [Object.prototype] do to a token: such a name, when
    it is no key of the table, is found on the prototype.  [area] then
    succeeds with an undefined id, [enter] throws, [waypoint] reports a
    missing target waypoint, and none of them changes the state. *)
Theorem inherited_member_as_area (key : string) (lookup : RouteLookup)
    (state : RouteState) :
  JsObject.get areas key = None ->
  JsObject.is_prototype_member key = true ->
  evaluateAction ["area"; key] lookup state = succeed (AreaAction Undefined) state
  /\ evaluateAction ["enter"; key] lookup state = throw state
  /\ evaluateAction ["waypoint"; key] lookup state
     = fail "missing target waypoint" state.
Proof.
  intros Hget Hmember.
  pose proof (proj1 (read_inherited _ _) (conj Hget Hmember)) as Hread.
  unfold evaluateAction. cbn [String.eqb Ascii.eqb Bool.eqb].
  unfold EvaluateArea, EvaluateEnter, EvaluateWaypoint.
  rewrite Hread. repeat split.
Qed.

(** *** The lookup, entry by entry *)

Lemma foldl_add_town_last (entries : JsObject.t Area) :
  forall (acc : gmap Z string) (n : Z) (town : string),
    acc !! n = Some town ->
    (forall k t, In (k, t) entries -> is_town_area t = true -> act t <> n) ->
    foldl add_town acc entries !! n = Some town.
Proof.
  induction entries as [|[k t] rest IH]; intros acc n town Hacc Hno; simpl;
    [exact Hacc|].
  apply IH.
  - unfold add_town. simpl. destruct (is_town_area t) eqn:Et; [|exact Hacc].
    rewrite lookup_insert_ne; [exact Hacc|].
    apply (Hno k t); [left; reflexivity|exact Et].
  - intros k' t' Hin. apply (Hno k'). right. exact Hin.
Qed.

Lemma foldl_add_town_app (xs ys : JsObject.t Area) (acc : gmap Z string) :
  foldl add_town acc (xs ++ ys) = foldl add_town (foldl add_town acc xs) ys.
Proof. apply foldl_app. Qed.

(** The lookup that [initializeRouteLookup] builds has an entry for an act
    exactly when the table has a town of that act; the entry is the id of
    the last such town in the order of the table. *)
Theorem initializeRouteLookup_entries (buildData : option BuildData) (n : Z) :
  (is_Some (towns (initializeRouteLookup buildData) !! n)
   <-> exists k t, In (k, t) areas /\ is_town_area t = true /\ act t = n)
  /\ (forall before after k t,
        areas = (before ++ (k, t) :: after)%list ->
        is_town_area t = true -> act t = n ->
        (forall k' t', In (k', t') after -> is_town_area t' = true -> act t' <> n) ->
        towns (initializeRouteLookup buildData) !! n = Some (area_id t)).
Proof.
  rewrite initializeRouteLookup_towns. split.
  - split.
    + intros [town Htown].
      destruct (foldl_add_town_source _ _ _ _ Htown)
        as [Hempty|(k & t & Hin & Ht & Hact & _)].
      * rewrite lookup_empty in Hempty. discriminate.
      * eauto.
    + intros (k & t & Hin & Ht & <-).
      exact (foldl_add_town_has areas ∅ k t Hin Ht).
  - intros before after k t Hareas Ht Hact Hlast.
    rewrite Hareas, foldl_add_town_app. simpl.
    apply foldl_add_town_last; [|exact Hlast].
    unfold add_town at 1. simpl. rewrite Ht, Hact. apply lookup_insert_eq.
Qed.

(** *** The lexer, piece by piece *)

Lemma match_all_drop (s : string) :
  forall k, match_all k s = match_all 0 (drop_string k s).
Proof.
  induction s as [|c s IH]; intros k.
  - destruct k; reflexivity.
  - destruct k as [|k]; [reflexivity|]. simpl. apply IH.
Qed.

Lemma match_at_empty : match_at EmptyString = None.
Proof. reflexivity. Qed.

Lemma match_all_cons (s : string) (m : RegexMatch) (n : nat) :
  match_at s = Some (m, n) -> (1 <= n)%nat ->
  match_all 0 s = m :: match_all 0 (drop_string n s).
Proof.
  intros Hm Hn. destruct s as [|c s]; [discriminate|].
  cbn [match_all]. rewrite Hm, match_all_drop.
  destruct n as [|n]; [lia|]. simpl. rewrite Nat.sub_0_r. reflexivity.
Qed.

Lemma take_string_app (s t : string) :
  take_string (String.length s) (s +:+ t) = s.
Proof.
  induction s as [|c s IH]; simpl; [destruct t; reflexivity|].
  rewrite IH. reflexivity.
Qed.

(** Inside a run of text, what is left starts with a text byte. *)
Lemma drop_string_in_text (text rest : string) :
  all_chars text_char text = true ->
  forall n, (n < String.length text)%nat ->
    exists c s', drop_string n (text +:+ rest) = String c s' /\ text_char c = true.
Proof.
  induction text as [|c text IH]; intros Htext n Hn; [simpl in Hn; lia|].
  cbn [all_chars] in Htext. apply andb_true_iff in Htext as [Hc Htext].
  change (String c text +:+ rest) with (String c (text +:+ rest)).
  destruct n as [|n]; [simpl; eauto|].
  cbn [drop_string]. apply IH; [exact Htext|]. simpl in Hn. lia.
Qed.

Lemma text_char_not_hash (c : ascii) : text_char c = true -> Ascii.eqb c "#" = false.
Proof.
  unfold text_char. intros H. apply andb_true_iff in H as [_ H].
  apply negb_true_iff in H. exact H.
Qed.

Lemma comment_at_in_text (text rest : string) :
  all_chars text_char text = true ->
  (space_run (text +:+ rest) < String.length text)%nat ->
  comment_at (text +:+ rest) = None.
Proof.
  intros Htext Hlt. unfold comment_at.
  destruct (drop_string_in_text text rest Htext _ Hlt) as (c & s' & -> & Hc).
  rewrite (text_char_not_hash _ Hc). reflexivity.
Qed.

Lemma comment_at_text (text rest : string) :
  text <> EmptyString -> all_chars text_char text = true ->
  ends_text text rest ->
  comment_at (text +:+ rest) = None.
Proof.
  intros Hne Htext Hend.
  destruct (all_space text) eqn:Ews.
  - pose proof (proj1 (all_space_length _) Ews) as Hrun. unfold comment_at.
    destruct Hend as [->|[(r & ->)|(r & _ & Hfalse)]]; [| |congruence].
    + rewrite append_empty_r, Hrun, drop_string_all. reflexivity.
    + rewrite (space_run_before "{" text r) by (vm_compute; reflexivity).
      rewrite Hrun, drop_string_app. reflexivity.
  - apply not_all_space_length in Ews.
    apply comment_at_in_text; [exact Htext|].
    destruct Hend as [->|[(r & ->)|(r & -> & _)]].
    + rewrite append_empty_r. exact Ews.
    + rewrite (space_run_before "{" text r) by (vm_compute; reflexivity).
      exact Ews.
    + rewrite (space_run_before "#" text r) by (vm_compute; reflexivity).
      exact Ews.
Qed.

Lemma run_length_text (text rest : string) :
  all_chars text_char text = true -> ends_text text rest ->
  run_length text_char (text +:+ rest) = String.length text.
Proof.
  intros Htext [->|[(r & ->)|(r & -> & _)]].
  - rewrite append_empty_r. apply run_length_all. exact Htext.
  - apply run_length_stop; [exact Htext|reflexivity].
  - apply run_length_stop; [exact Htext|reflexivity].
Qed.

Lemma parseStep_text_run (text rest : string) :
  text <> EmptyString -> all_chars text_char text = true ->
  ends_text text rest ->
  parseStep (text +:+ rest) = ParsedText text :: parseStep rest.
Proof.
  intros Hne Htext Hend. unfold parseStep.
  rewrite (match_all_cons _ (TextMatch text) (String.length text)).
  - rewrite drop_string_app. reflexivity.
  - unfold match_at.
    rewrite (comment_at_text _ _ Hne Htext Hend), (run_length_text _ _ Htext Hend).
    rewrite take_string_app.
    destruct text; [congruence|]. reflexivity.
  - destruct text; [congruence|]. simpl. lia.
Qed.

(** A run of text up to the end of the line, a brace or a comment is one
    text fragment, verbatim, and lexing goes on after it. *)
Theorem parseStep_text (text rest : string) :
  text <> EmptyString -> all_chars text_char text = true ->
  ends_text text rest ->
  parseStep (text +:+ rest) = ParsedText text :: parseStep rest.
Proof. exact (parseStep_text_run text rest). Qed.

Lemma drop_string_group (inner rest : string) :
  drop_string (String.length inner + 2)
    (String "{" (inner +:+ String "}" rest)) = rest.
Proof.
  replace (String.length inner + 2)%nat
    with (S (String.length (inner +:+ String "}" EmptyString)))
    by (rewrite length_append; simpl; lia).
  cbn [drop_string].
  change (String "}" rest) with (String "}" EmptyString +:+ rest).
  rewrite <- append_assoc. apply drop_string_app.
Qed.

Lemma until_close_inner (inner rest : string) :
  all_chars not_close inner = true -> no_line_terminator inner = true ->
  until_close (inner +:+ String "}" rest) = Some inner.
Proof.
  induction inner as [|c inner IH]; intros Hclose Hlt; [reflexivity|].
  cbn [all_chars] in Hclose. apply andb_true_iff in Hclose as [Hc Hclose].
  apply negb_true_iff in Hc.
  apply no_line_terminator_cons in Hlt as [Hw Hlt].
  pose proof (line_terminator_width_before "}" (String c inner) rest eq_refl) as E.
  change (String c inner +:+ String "}" rest)
    with (String c (inner +:+ String "}" rest)) in *.
  cbn [until_close]. rewrite Hc, E, Hw, (IH Hclose Hlt). reflexivity.
Qed.

Lemma comment_at_brace (s : string) : comment_at (String "{" s) = None.
Proof.
  unfold comment_at, space_run. cbn [chars_run].
  rewrite (width_of_avoided white_space "{" s) by (vm_compute; reflexivity).
  reflexivity.
Qed.

(** A braced group with a non-empty interior free of closing braces and
    line terminators is one token, its interior split at the bars, and
    lexing goes on after it. *)
Theorem parseStep_token (inner rest : string) :
  inner <> EmptyString ->
  all_chars not_close inner = true -> no_line_terminator inner = true ->
  parseStep (String "{" (inner +:+ String "}" rest))
  = ParsedToken (split "|" inner) :: parseStep rest.
Proof.
  intros Hne Hclose Hlt. unfold parseStep.
  rewrite (match_all_cons _ (ActionMatch inner) (String.length inner + 2)).
  - rewrite drop_string_group. reflexivity.
  - destruct inner as [|c inner]; [congruence|].
    cbn [all_chars] in Hclose. apply andb_true_iff in Hclose as [_ Hclose].
    apply no_line_terminator_cons in Hlt as [Hw Hlt].
    pose proof (line_terminator_width_before "}" (String c inner) rest eq_refl) as E.
    change (String c inner +:+ String "}" rest)
      with (String c (inner +:+ String "}" rest)) in *.
    unfold match_at. rewrite comment_at_brace.
    cbn [run_length text_char Ascii.eqb Bool.eqb negb andb Nat.ltb Nat.leb action_at].
    rewrite E, Hw, (until_close_inner _ _ Hclose Hlt). reflexivity.
  - lia.
Qed.

Lemma until_close_none (s : string) :
  all_chars not_close s = true -> until_close s = None.
Proof.
  induction s as [|c s IH]; intros H; [reflexivity|].
  cbn [all_chars] in H. apply andb_true_iff in H as [Hc H]. unfold not_close in Hc.
  apply negb_true_iff in Hc. cbn [until_close]. rewrite Hc, (IH H).
  destruct (line_terminator_width (String c s)); reflexivity.
Qed.

(** An opening brace that finds no closing brace from its second
    following character on is passed over, and what follows it is lexed as
    if the brace were not there; in particular an empty group leaves its
    closing brace behind as text. *)
Theorem parseStep_unclosed_brace (c : ascii) (rest : string) :
  all_chars not_close rest = true ->
  parseStep (String "{" (String c rest)) = parseStep (String c rest)
  /\ parseStep (String "{" EmptyString) = []
  /\ parseStep (String "{" (String "}" EmptyString))
     = [ParsedText (String "}" EmptyString)].
Proof.
  intros Hrest. split; [|split; reflexivity].
  unfold parseStep. cbn [match_all].
  assert (Hnone : match_at (String "{" (String c rest)) = None).
  { unfold match_at. rewrite comment_at_brace.
    cbn [run_length text_char Ascii.eqb Bool.eqb negb andb Nat.ltb Nat.leb action_at].
    rewrite (until_close_none _ Hrest).
    destruct (Nat.eqb (line_terminator_width (String c rest)) 0); reflexivity. }
  rewrite Hnone. reflexivity.
Qed.

(** A line with text before a comment that holds no line terminator: the
    text is kept, with the white space that precedes the [#], and the
    comment is dropped. *)
Theorem parseStep_text_then_comment (text comment : string) :
  all_chars text_char text = true -> all_space text = false ->
  no_line_terminator comment = true ->
  parseStep (text +:+ String "#" comment) = [ParsedText text].
Proof.
  intros Htext Hws Hcomment.
  rewrite parseStep_text_run.
  - rewrite (parseStep_comment_only (String "#" comment)); [reflexivity|].
    exists EmptyString, comment. repeat split. exact Hcomment.
  - intros ->. discriminate.
  - exact Htext.
  - right. right. exists comment. split; [reflexivity|exact Hws].
Qed.

(** *** What the lexer never yields *)

Lemma match_all_in (s : string) :
  forall k m, In m (match_all k s) -> exists s' n, match_at s' = Some (m, n).
Proof.
  induction s as [|c s IH]; intros k m Hin; simpl in Hin; [destruct Hin|].
  destruct k as [|k]; [|eapply IH; exact Hin].
  destruct (match_at (String c s)) as [[m' n]|] eqn:E; [|eapply IH; exact Hin].
  destruct Hin as [<-|Hin]; [eauto|eapply IH; exact Hin].
Qed.

Lemma take_run_all (p : ascii -> bool) (s : string) :
  all_chars p (take_string (run_length p s) s) = true.
Proof.
  induction s as [|c s IH]; simpl; [reflexivity|].
  destruct (p c) eqn:E; simpl; [rewrite E, IH|]; reflexivity.
Qed.

(** What [.+?] took before the closing brace. *)
Lemma until_close_spec (s : string) :
  forall inner,
    until_close s = Some inner ->
    (exists r, s = inner +:+ String "}" r)
    /\ all_chars not_close inner = true
    /\ no_line_terminator inner = true.
Proof.
  induction s as [|c s IH]; intros inner H; [discriminate|].
  cbn [until_close] in H.
  destruct (Ascii.eqb c "}") eqn:Ec.
  { injection H as <-. apply Ascii.eqb_eq in Ec as ->.
    split; [exists s; reflexivity|split; reflexivity]. }
  destruct (line_terminator_width (String c s)) as [|n] eqn:Ew; [|discriminate].
  destruct (until_close s) as [inner'|]; [|discriminate].
  injection H as <-.
  destruct (IH inner' eq_refl) as ((r & ->) & Hclose & Hlt).
  split; [exists r; reflexivity|].
  split; [cbn [all_chars]; unfold not_close at 1; rewrite Ec; exact Hclose|].
  apply no_line_terminator_cons. split; [|exact Hlt].
  rewrite <- (line_terminator_width_before "}" (String c inner') r eq_refl).
  exact Ew.
Qed.

Lemma action_at_spec (s inner : string) :
  action_at s = Some inner ->
  all_chars not_close (drop_string 1 inner) = true
  /\ no_line_terminator inner = true.
Proof.
  unfold action_at. destruct s as [|c0 [|c1 rest]]; try discriminate.
  destruct (Ascii.eqb c0 "{" && Nat.eqb (line_terminator_width (String c1 rest)) 0)
    eqn:E; [|discriminate].
  apply andb_true_iff in E as [_ Hw]. apply Nat.eqb_eq in Hw.
  destruct (until_close rest) as [body|] eqn:Eb; [|discriminate].
  intros H. injection H as <-.
  destruct (until_close_spec _ _ Eb) as ((r & ->) & Hclose & Hlt).
  split; [exact Hclose|].
  apply no_line_terminator_cons. split; [|exact Hlt].
  rewrite <- (line_terminator_width_before "}" (String c1 body) r eq_refl).
  exact Hw.
Qed.

(** The first field is what stands before the first separator. *)
Lemma split_head (sep : ascii) (s : string) :
  forall x xs,
    split sep s = x :: xs ->
    s = x \/ exists r, s = x +:+ String sep r.
Proof.
  induction s as [|c s IH]; intros x xs H; simpl in H.
  - injection H as <- _. left. reflexivity.
  - destruct (Ascii.eqb c sep) eqn:E.
    + injection H as <- _. apply Ascii.eqb_eq in E as ->.
      right. exists s. reflexivity.
    + destruct (split sep s) as [|y ys] eqn:Es.
      * injection H as <- _. destruct s; simpl in Es.
        -- left. reflexivity.
        -- destruct (Ascii.eqb a sep); [discriminate|].
           destruct (split sep s); discriminate.
      * injection H as <- _.
        destruct (IH y ys eq_refl) as [->|(r & ->)].
        -- left. reflexivity.
        -- right. exists r. reflexivity.
Qed.

Lemma split_fields (sep : ascii) (s : string) :
  split sep s <> []
  /\ Forall (fun field => all_chars (fun c => negb (Ascii.eqb c sep)) field = true)
       (split sep s).
Proof.
  induction s as [|c s IH]; simpl.
  - split; [discriminate|]. repeat constructor.
  - destruct IH as [Hne Hall].
    destruct (Ascii.eqb c sep) eqn:E.
    + split; [discriminate|]. constructor; [reflexivity|exact Hall].
    + destruct (split sep s) as [|x xs]; [congruence|].
      split; [discriminate|].
      inversion Hall as [|? ? Hx Hxs]; subst.
      constructor; [|exact Hxs].
      simpl. rewrite E, Hx. reflexivity.
Qed.

Lemma split_no_line_terminator (sep : ascii) :
  avoids sep line_terminators = true ->
  forall s,
    no_line_terminator s = true ->
    Forall (fun field => no_line_terminator field = true) (split sep s).
Proof.
  intros Hsep. induction s as [|c s IH]; intros Hlt.
  - repeat constructor.
  - apply no_line_terminator_cons in Hlt as [Hw Hlt]. specialize (IH Hlt).
    cbn [split]. destruct (Ascii.eqb c sep) eqn:E.
    + constructor; [reflexivity|exact IH].
    + destruct (split sep s) as [|x xs] eqn:Es.
      * repeat constructor. apply no_line_terminator_cons. split; [|reflexivity].
        destruct s; simpl in Es.
        -- exact Hw.
        -- destruct (Ascii.eqb a sep); [discriminate|].
           destruct (split sep s); discriminate.
      * inversion IH as [|? ? Hx Hxs]; subst.
        constructor; [|exact Hxs].
        apply no_line_terminator_cons. split; [|exact Hx].
        destruct (split_head sep s x xs Es) as [->|(r & ->)]; [exact Hw|].
        rewrite <- (line_terminator_width_before sep (String c x) r Hsep).
        exact Hw.
Qed.

(** Whatever the line, the lexer yields no empty text fragment, no text
    fragment that holds a [{] or a [#], no token without a field, and no
    field that holds a [|] or a line terminator. *)
Theorem parseStep_parts_ok (text : string) :
  Forall parsed_part_ok (parseStep text).
Proof.
  apply Forall_forall. intros part Hin. apply list_elem_of_In in Hin.
  unfold parseStep in Hin. apply in_flat_map in Hin as (m & Hm & Hpart).
  apply match_all_in in Hm as (s & n & Hat).
  unfold match_at in Hat.
  destruct (comment_at s) as [k|].
  { injection Hat as <- _. destruct Hpart. }
  destruct (0 <? run_length text_char s)%nat eqn:Erun.
  - injection Hat as <- _. destruct Hpart as [<-|[]]. simpl. split.
    + apply Nat.ltb_lt in Erun. destruct s as [|c s]; [simpl in Erun; lia|].
      simpl in *. destruct (text_char c); [discriminate|lia].
    + apply take_run_all.
  - destruct (action_at s) as [inner|] eqn:Eaction; [|discriminate].
    injection Hat as <- _. destruct Hpart as [<-|[]]. simpl.
    destruct (action_at_spec _ _ Eaction) as [_ Hlt].
    destruct (split_fields "|" inner) as [Hne Hpipe].
    split; [exact Hne|].
    pose proof (split_no_line_terminator "|" eq_refl inner Hlt) as Hfields.
    rewrite Forall_forall in *. intros field Hfield.
    split; [exact (Hpipe field Hfield)|exact (Hfields field Hfield)].
Qed.

(** *** Lines of a document *)

Lemma splitLines_line (line : string) (rest : list string) (c : ascii) (s : string) :
  Ascii.eqb c CR = false -> Ascii.eqb c LF = false ->
  splitLines s = line :: rest ->
  splitLines (String c s) = String c line :: rest.
Proof. intros Hcr Hlf Hs. cbn [splitLines]. rewrite Hcr, Hlf, Hs. reflexivity. Qed.

Lemma splitLines_nonempty (s : string) : splitLines s <> [].
Proof.
  destruct s as [|c s]; [discriminate|]. cbn [splitLines].
  destruct (Ascii.eqb c CR).
  - destruct s as [|c' s']; [discriminate|]. destruct (Ascii.eqb c' LF); discriminate.
  - destruct (Ascii.eqb c LF); [discriminate|].
    destruct (splitLines s); discriminate.
Qed.

Lemma not_line_break_eqb (c : ascii) :
  not_line_break c = true -> Ascii.eqb c CR = false /\ Ascii.eqb c LF = false.
Proof.
  destruct c as [[] [] [] [] [] [] [] []]; try discriminate; split; reflexivity.
Qed.

Lemma splitLines_prefix (line : string) :
  all_chars not_line_break line = true ->
  forall rest first others,
    splitLines rest = first :: others ->
    splitLines (line +:+ rest) = (line +:+ first) :: others.
Proof.
  induction line as [|c line IH]; intros Hline rest first others Hrest.
  - exact Hrest.
  - change (all_chars not_line_break (String c line))
      with (not_line_break c && all_chars not_line_break line) in Hline.
    apply andb_true_iff in Hline as [Hc Hline].
    destruct (not_line_break_eqb c Hc) as [Hcr Hlf].
    change (String c line +:+ rest) with (String c (line +:+ rest)).
    change (String c line +:+ first) with (String c (line +:+ first)).
    apply splitLines_line; try assumption.
    apply IH; assumption.
Qed.

(** Any newline convention is accepted: a line ends at a line feed, at a
    carriage return with its line feed, or at a lone carriage return; the
    text after the last line break is a line too, and no line holds a
    carriage return or a line feed. *)
Theorem splitLines_conventions (line rest : string) :
  all_chars not_line_break line = true ->
  splitLines line = [line]
  /\ splitLines (line +:+ String LF rest) = line :: splitLines rest
  /\ splitLines (line +:+ String CR (String LF rest)) = line :: splitLines rest
  /\ (forall c r, rest = String c r -> Ascii.eqb c LF = false ->
        splitLines (line +:+ String CR rest) = line :: splitLines rest)
  /\ splitLines (line +:+ String CR EmptyString) = [line; EmptyString]
  /\ (forall text l, In l (splitLines text) ->
        all_chars not_line_break l = true).
Proof.
  intros Hline.
  split; [|split; [|split; [|split; [|split]]]].
  - rewrite <- (append_empty_r line) at 1.
    rewrite (splitLines_prefix line Hline EmptyString EmptyString [] eq_refl).
    rewrite append_empty_r. reflexivity.
  - rewrite (splitLines_prefix line Hline (String LF rest) EmptyString
               (splitLines rest) eq_refl).
    rewrite append_empty_r. reflexivity.
  - rewrite (splitLines_prefix line Hline (String CR (String LF rest)) EmptyString
               (splitLines rest) eq_refl).
    rewrite append_empty_r. reflexivity.
  - intros c r -> Hc.
    rewrite (splitLines_prefix line Hline (String CR (String c r)) EmptyString
               (splitLines (String c r))).
    + rewrite append_empty_r. reflexivity.
    + cbn [splitLines]. change (Ascii.eqb CR CR) with true. cbv iota.
      rewrite Hc. reflexivity.
  - rewrite (splitLines_prefix line Hline (String CR EmptyString) EmptyString
               [EmptyString] eq_refl).
    rewrite append_empty_r. reflexivity.
  - intros text l Hin.
    exact (splitLines_no_line_break (String.length text) text l
             (Nat.le_refl _) Hin).
Qed.

(** The lookup that [initializeRouteLookup] builds from a table keyed by
    id in which every act that has an area has a town meets what the state
    invariant asks of a lookup: a town entry for the act of every area, and
    only entries that are ids of the table. *)
Theorem initializeRouteLookup_supports_invariant (buildData : option BuildData) :
  keyed_by_id ->
  (forall k a, In (k, a) areas ->
     exists k' t, In (k', t) areas /\ is_town_area t = true /\ act t = act a) ->
  towns_cover (initializeRouteLookup buildData)
  /\ towns_known (initializeRouteLookup buildData).
Proof.
  intros Hkeyed Hall. split.
  - intros k a Hget.
    destruct (initializeRouteLookup_towns_ok buildData Hkeyed Hall k a Hget)
      as (t & Ht & _).
    eauto.
  - apply initializeRouteLookup_towns_known. exact Hkeyed.
Qed.
End Routes.

(** ** Examples on the small world *)

(** A stand-in for the quest evaluators: it reports and changes nothing. *)
Abbreviation demo_quest :=
  ((fun _ _ state => (Normal (Diagnostic "quest data not loaded"), state))
   : @Evaluator unit unit unit).

Abbreviation demo_eval :=
  (evaluateAction demo_areas demo_killWaypoints demo_quest demo_quest).

Lemma demo_keyed_by_id : keyed_by_id demo_areas.
Proof. unfold keyed_by_id, demo_areas. repeat constructor. Defined.

Lemma demo_towns_cover : towns_cover demo_areas demo_lookup.
Proof.
  intros k a H. exists "1_1_town".
  unfold demo_areas in H. simpl in H.
  repeat match type of H with
         | (if ?b then _ else _) = _ => destruct b; [injection H as <-; reflexivity|]
         end.
  discriminate.
Defined.

Lemma demo_towns_known : towns_known demo_areas demo_lookup.
Proof.
  intros n t H. unfold demo_lookup in H. simpl in H.
  apply lookup_singleton_Some in H as [_ <-].
  unfold known. vm_compute. eauto.
Defined.

Lemma enter_connected_witness :
  exists state',
    demo_eval ["enter"; "1_1_town"] demo_lookup demo_state
    = (Normal (Success {| action := Some (EnterAction "1_1_town");
                          additionalSteps := None |}), state')
    /\ currentAreaId state' = Id "1_1_town"
    /\ lastTownAreaId state' = "1_1_town"
    /\ implicitWaypoints state' = ["1_1_town"].
Proof.
  destruct (enter_connected demo_areas demo_killWaypoints demo_quest demo_quest
              "1_1_town" "1_1_1" lioneyes_watch demo_lookup demo_state
              eq_refl eq_refl (or_introl eq_refl))
    as (state' & Hrun & Hcur & Htown).
  destruct (Htown eq_refl) as (Hlast & Hwp).
  destruct (Hwp eq_refl) as (Himplicit & _).
  exists state'. repeat split; assumption.
Defined.

Lemma portal_round_trip_witness :
  exists state1 state2 state3,
    demo_eval ["set_portal"] demo_lookup demo_state
      = (Normal (Success {| action := Some SetPortalAction;
                            additionalSteps := None |}), state1)
    /\ demo_eval ["use_portal"] demo_lookup state1
         = (Normal (Success {| action := Some UsePortalAction;
                               additionalSteps := None |}), state2)
    /\ currentAreaId state2 = Id "1_1_town" /\ portalAreaId state2 = Id "1_1_1"
    /\ demo_eval ["use_portal"] demo_lookup state2
         = (Normal (Success {| action := Some UsePortalAction;
                               additionalSteps := None |}), state3)
    /\ currentAreaId state3 = Id "1_1_1" /\ portalAreaId state3 = Null
    /\ demo_eval ["use_portal"] demo_lookup state3
         = (Normal (Diagnostic "portal must be set"), state3).
Proof.
  destruct (portal_round_trip demo_areas demo_killWaypoints demo_quest demo_quest
              "1_1_1" "1_1_town" twilight_strand lioneyes_watch
              demo_lookup demo_state
              eq_refl eq_refl ltac:(discriminate) eq_refl eq_refl
              eq_refl eq_refl eq_refl eq_refl eq_refl)
    as (s1 & s2 & s3 & H1 & _ & H2 & H3 & H4 & H5 & H6 & H7 & H8).
  exists s1, s2, s3. repeat split; assumption.
Defined.

Lemma state_invariant_witness :
  state_ok demo_areas
    (run_state
       (parseRoute demo_areas demo_killWaypoints demo_quest demo_quest
          ["{enter|1_1_town} then {enter|1_1_2}{get_waypoint}{set_portal}{use_portal}"]
          demo_lookup initializeRouteState)).
Proof.
  apply (state_invariant demo_areas demo_killWaypoints demo_quest demo_quest
           demo_lookup demo_keyed_by_id demo_towns_known).
  - unfold known. vm_compute. eauto.
  - unfold known. vm_compute. eauto.
  - exact demo_towns_cover.
  - intros action state H. exact H.
  - intros action state H. exact H.
Defined.

Lemma waypoint_missing_target_witness :
  demo_eval ["waypoint"; "1_1_2"] demo_lookup demo_state
  = (Normal (Diagnostic "missing target waypoint"), demo_state).
Proof.
  exact (waypoint_missing_target demo_areas demo_killWaypoints demo_quest
           demo_quest "1_1_2" the_coast demo_lookup demo_state
           eq_refl eq_refl eq_refl).
Defined.

Lemma get_waypoint_twice_witness :
  exists state1 state2,
    fst (demo_eval ["get_waypoint"] demo_lookup demo_state_coast)
      = Normal (Success {| action := Some GetWaypointAction;
                           additionalSteps := None |})
    /\ state1 = snd (demo_eval ["get_waypoint"] demo_lookup demo_state_coast)
    /\ demo_eval ["get_waypoint"] demo_lookup state1
         = (Normal (Success {| action := Some GetWaypointAction;
                               additionalSteps := None |}), state2)
    /\ explicitWaypoints state2 = ["1_1_2"].
Proof.
  destruct (get_waypoint_twice demo_areas demo_killWaypoints demo_quest
              demo_quest "1_1_2" the_coast demo_lookup demo_state_coast
              eq_refl eq_refl eq_refl eq_refl)
    as (s1 & s2 & H1 & H2 & H3 & H4 & _).
  exists s1, s2. rewrite H1. simpl.
  repeat split; try assumption.
  rewrite H4, H2. reflexivity.
Defined.

Lemma line_contribution_witness :
  parseLine demo_areas demo_killWaypoints demo_quest demo_quest
    "  # a remark" demo_lookup demo_state []
  = (Normal [], demo_state, [])
  /\ (exists state' log',
        parseLine demo_areas demo_killWaypoints demo_quest demo_quest
          "{enter|nowhere}{fly}" demo_lookup demo_state []
        = (Normal [], state', log'))
  /\ parseLine demo_areas demo_killWaypoints demo_quest demo_quest
       "   " demo_lookup demo_state []
     = (Normal [ActionStep [TextPart "   "]], demo_state, []).
Proof.
  split; [|split].
  - apply (line_contribution demo_areas demo_killWaypoints demo_quest demo_quest
             "  # a remark" demo_lookup demo_state []).
    right. exists "  ", " a remark". repeat split; reflexivity.
  - apply (line_contribution demo_areas demo_killWaypoints demo_quest demo_quest
             "{enter|nowhere}{fly}" demo_lookup demo_state []).
    vm_compute. exact I.
  - apply (line_contribution demo_areas demo_killWaypoints demo_quest demo_quest
             "   " demo_lookup demo_state []).
    + discriminate.
    + reflexivity.
Defined.

(** A line of white space is not dropped: it yields a step. *)
Lemma white_space_line_counterexample :
  ~ (forall line,
       all_space line = true ->
       exists state' log',
         parseLine demo_areas demo_killWaypoints demo_quest demo_quest
           line demo_lookup demo_state []
         = (Normal [], state', log')).
Proof.
  intros H. destruct (H " " eq_refl) as (state' & log' & Hrun).
  vm_compute in Hrun. discriminate.
Qed.

(** A comment ends where a line separator stands: what follows U+2028 on
    the line is text again, and the line yields a step. *)
Lemma comment_ends_at_line_separator :
  parseStep ("# a" +:+ utf8 [226; 128; 168] +:+ "b")
  = [ParsedText (utf8 [226; 128; 168] +:+ "b")]
  /\ parseLine demo_areas demo_killWaypoints demo_quest demo_quest
       ("# a" +:+ utf8 [226; 128; 168] +:+ "b") demo_lookup demo_state []
     = (Normal [ActionStep [TextPart (utf8 [226; 128; 168] +:+ "b")]],
        demo_state, []).
Proof. vm_compute. split; reflexivity. Qed.

Lemma post_pass_diagnostics_witness :
  exists routes state' log,
    parseRoute demo_areas demo_killWaypoints demo_quest demo_quest
      ["{enter|1_1_town}"; "{enter|1_1_2}{get_waypoint}"]
      demo_lookup demo_state
    = (Normal routes, state', log)
    /\ log = ["unused waypoint 1_1_2";
              "missing crafting area 1_1_2, Fire Resistance, Life"].
Proof.
  do 3 eexists. split; [vm_compute; reflexivity|].
  destruct (post_pass_diagnostics demo_areas demo_killWaypoints demo_quest
              demo_quest
              ["{enter|1_1_town}"; "{enter|1_1_2}{get_waypoint}"]
              demo_lookup demo_state _ _ _
              (NoDup_nil_2 : explicit_ok demo_state)
              (fun _ state H => H) (fun _ state H => H) eq_refl)
    as (docLog & unused & missing & _ & Hlog & _).
  reflexivity.
Defined.

(** C4: the reads of the area table at the current area id are unguarded
    in [ascend], [crafting], [use_portal] and [waypoint]; with a current
    area id that is not a key of the table each of them throws.  Such a
    state is reached from the initial one when [use_portal] is used in an
    area whose act has no town entry. *)
Theorem unguarded_current_area_throws :
  let lost := set_currentAreaId (Id "no_such_area") demo_state in
  let anchored := set_portalAreaId (Id "1_1_1") lost in
  let knows_coast := set_implicitWaypoints ["1_1_2"] lost in
  demo_eval ["ascend"] demo_lookup lost = (Throw TypeError, lost)
  /\ demo_eval ["crafting"] demo_lookup lost = (Throw TypeError, lost)
  /\ demo_eval ["use_portal"] demo_lookup anchored = (Throw TypeError, anchored)
  /\ demo_eval ["waypoint"; "1_1_2"] demo_lookup knows_coast
     = (Throw TypeError, knows_coast)
  /\ demo_eval ["get_waypoint"] demo_lookup lost
     = (Normal (Diagnostic ERROR_MISSING_AREA), lost)
  /\ fst (fst (parseRoute demo_areas_lab demo_killWaypoints demo_quest demo_quest
                 ["{enter|1_1_town}{enter|Labyrinth_Airlock}";
                  "{set_portal}{use_portal}{ascend}"]
                 (initializeRouteLookup demo_areas_lab None)
                 initializeRouteState))
     = Throw TypeError.
Proof. vm_compute. repeat split; reflexivity. Qed.

(** The examples of the specification for [dir]. *)
Lemma dir_examples :
  demo_eval ["dir"; "-45"] demo_lookup demo_state
  = succeed (DirectionAction (JsNumber.of_Z 7)) demo_state
  /\ demo_eval ["dir"; "405"] demo_lookup demo_state
     = succeed (DirectionAction (JsNumber.of_Z 1)) demo_state
  /\ demo_eval ["dir"; "360"] demo_lookup demo_state
     = succeed (DirectionAction (JsNumber.of_Z 0)) demo_state
  /\ demo_eval ["dir"; "50"] demo_lookup demo_state
     = fail "dir value must be in intervals of 45" demo_state
  /\ demo_eval ["dir"; "north"] demo_lookup demo_state
     = fail "dir value is not a number" demo_state.
Proof. vm_compute. repeat split; reflexivity. Qed.

(** C6: a negative angle so small that adding 360 rounds to 360 is not
    brought into [0, 360): the evaluator succeeds with index 8. *)
Theorem dir_index_out_of_range :
  JsNumber.ltb (JsNumber.parseFloat "-1e-20") (JsNumber.of_Z 0) = true
  /\ JsNumber.add (JsNumber.rem (JsNumber.parseFloat "-1e-20") (JsNumber.of_Z 360))
       (JsNumber.of_Z 360)
     = JsNumber.of_Z 360
  /\ demo_eval ["dir"; "-1e-20"] demo_lookup demo_state
     = succeed (DirectionAction (JsNumber.of_Z 8)) demo_state.
Proof. vm_compute. repeat split; reflexivity. Qed.

(** On a whole number of degrees the evaluator and the specification's
    words agree: same index, numerically, and between 0 and 7; or the
    45-interval diagnostic. *)
Abbreviation dir_agrees :=
  (fun angle : Z =>
     match demo_eval ["dir"; numeral angle] demo_lookup demo_state,
           spec_dir_index angle with
     | (Normal (Success {| action := Some (DirectionAction index) |}), _), Some k =>
         JsNumber.eqb index (JsNumber.of_Z k) && (0 <=? k) && (k <=? 7)
     | (Normal (Diagnostic message), _), None =>
         String.eqb message "dir value must be in intervals of 45"
     | _, _ => false
     end).

Lemma dir_agrees_checked :
  forallb dir_agrees (map (fun i => Z.of_nat i - 1440) (seq 0 2881)) = true.
Proof. vm_compute. reflexivity. Qed.

Lemma dir_whole_degrees (angle : Z) :
  -1440 <= angle <= 1440 -> dir_agrees angle = true.
Proof.
  intros Hrange.
  pose proof dir_agrees_checked as Hall.
  rewrite forallb_forall in Hall. apply (Hall angle).
  apply in_map_iff. exists (Z.to_nat (angle + 1440)). split; [lia|].
  apply in_seq. lia.
Qed.

(** ** Further examples on the small world *)

Abbreviation demo_parseRoute :=
  (parseRoute demo_areas demo_killWaypoints demo_quest demo_quest).

Lemma sets_only_grow_witness :
  sets_grow demo_state
    (run_state
       (demo_parseRoute ["{kill|Hillock}"; "{enter|1_1_town}{crafting|1_1_2}"]
          demo_lookup demo_state)).
Proof.
  apply (sets_only_grow demo_areas demo_killWaypoints demo_quest demo_quest
           demo_lookup).
  - intros action state. apply sets_grow_refl.
  - intros action state. apply sets_grow_refl.
Defined.

Lemma last_town_stays_town_witness :
  last_town_is_town demo_areas
    (run_state
       (demo_parseRoute ["{enter|1_1_town}{enter|1_1_2}{town}"]
          demo_lookup demo_state)).
Proof.
  apply (last_town_stays_town demo_areas demo_killWaypoints demo_quest
           demo_quest demo_lookup demo_keyed_by_id).
  - intros action state H. exact H.
  - intros action state H. exact H.
  - exists lioneyes_watch. split; reflexivity.
Defined.

Lemma used_waypoints_were_known_witness :
  used_were_known
    (run_state
       (demo_parseRoute ["{kill|Hillock}{enter|1_1_town}{waypoint|1_1_2}"]
          demo_lookup initializeRouteState)).
Proof.
  apply (used_waypoints_were_known demo_areas demo_killWaypoints demo_quest
           demo_quest demo_lookup).
  - intros action state H. exact H.
  - intros action state H. exact H.
Defined.

Lemma explicit_waypoints_have_waypoints_witness :
  explicit_have_waypoints demo_areas
    (run_state
       (demo_parseRoute ["{enter|1_1_town}{enter|1_1_2}{get_waypoint}"]
          demo_lookup initializeRouteState)).
Proof.
  apply (explicit_waypoints_have_waypoints demo_areas demo_killWaypoints
           demo_quest demo_quest demo_lookup).
  - intros action state H. exact H.
  - intros action state H. exact H.
Defined.

Lemma crafting_areas_are_areas_witness :
  crafting_are_areas demo_areas
    (run_state
       (demo_parseRoute ["{crafting}{crafting|1_1_2}{crafting|valueOf}"]
          demo_lookup initializeRouteState)).
Proof.
  apply (crafting_areas_are_areas demo_areas demo_killWaypoints
           demo_quest demo_quest demo_lookup).
  - intros action state H. exact H.
  - intros action state H. exact H.
Defined.

Lemma unknown_verb_invalid_format_witness :
  demo_eval ["fly"; "1_1_2"] demo_lookup demo_state
  = fail ERROR_INVALID_FORMAT demo_state.
Proof.
  apply (unknown_verb_invalid_format demo_areas demo_killWaypoints demo_quest
           demo_quest "fly" ["1_1_2"] demo_lookup demo_state).
  unfold verbs. simpl. intros H.
  repeat match type of H with
         | _ \/ _ => destruct H as [H|H]
         end; try discriminate H; exact H.
Defined.

Lemma wrong_argument_count_invalid_format_witness :
  demo_eval ["enter"; "1_1_town"; "now"] demo_lookup demo_state
  = fail ERROR_INVALID_FORMAT demo_state.
Proof.
  apply (wrong_argument_count_invalid_format demo_areas demo_killWaypoints
           demo_quest demo_quest "enter" ["1_1_town"; "now"]).
  left. split; [simpl; tauto|simpl; lia].
Defined.

Lemma stateless_verbs_keep_state_witness :
  exists r, demo_eval ["area"; "nowhere"] demo_lookup demo_state
            = (Normal r, demo_state).
Proof.
  apply (stateless_verbs_keep_state demo_areas demo_killWaypoints demo_quest
           demo_quest "area" ["nowhere"]).
  simpl. tauto.
Defined.

Lemma acquired_gems_untouched_witness :
  acquiredGems
    (run_state
       (demo_parseRoute ["{kill|Hillock}{enter|1_1_town}{set_portal}"]
          demo_lookup demo_state)) = [].
Proof.
  apply (acquired_gems_untouched demo_areas demo_killWaypoints demo_quest
           demo_quest demo_lookup []).
  - intros action state H. exact H.
  - intros action state H. exact H.
  - reflexivity.
Defined.

Lemma demo_plaza_keyed_by_id : keyed_by_id demo_areas_plaza.
Proof. unfold keyed_by_id, demo_areas_plaza, demo_areas. repeat constructor. Defined.

Lemma demo_plaza_towns_cover : towns_cover demo_areas_plaza demo_lookup.
Proof.
  intros k a H. exists "1_1_town".
  unfold demo_areas_plaza, demo_areas in H. simpl in H.
  repeat match type of H with
         | (if ?b then _ else _) = _ => destruct b; [injection H as <-; reflexivity|]
         end.
  discriminate.
Defined.

Lemma demo_plaza_towns_known : towns_known demo_areas_plaza demo_lookup.
Proof.
  intros n t H. unfold demo_lookup in H. simpl in H.
  apply lookup_singleton_Some in H as [_ <-].
  unfold known. vm_compute. eauto.
Defined.

Lemma parseRoute_returns_from_initial_state_witness :
  exists routes state' log,
    parseRoute demo_areas_plaza demo_killWaypoints demo_quest demo_quest
      ["{enter|1_1_town}{enter|Labyrinth_Airlock}{set_portal}{use_portal}{ascend}"]
      demo_lookup initializeRouteState
    = (Normal routes, state', log).
Proof.
  apply (parseRoute_returns_from_initial_state demo_areas_plaza
           demo_killWaypoints demo_quest demo_quest demo_lookup
           demo_plaza_keyed_by_id demo_plaza_towns_known demo_plaza_towns_cover).
  - unfold known. vm_compute. eauto.
  - unfold known. vm_compute. eauto.
  - unfold known. vm_compute. eauto.
  - intros action state H. exact H.
  - intros action state H. exact H.
  - intros action state. eauto.
  - intros action state. eauto.
  - reflexivity.
Defined.

Lemma parseRoute_one_route_per_document_witness :
  exists routes state' log,
    demo_parseRoute ["{enter|1_1_town}"; ""; "# nothing here"]
      demo_lookup demo_state
    = (Normal routes, state', log)
    /\ length routes = 3%nat.
Proof.
  do 3 eexists. split; [vm_compute; reflexivity|].
  exact (parseRoute_one_route_per_document demo_areas demo_killWaypoints
           demo_quest demo_quest
           ["{enter|1_1_town}"; ""; "# nothing here"]
           demo_lookup demo_state _ _ _ eq_refl).
Defined.

Lemma line_text_is_kept_witness :
  exists parts rest,
    fst (fst (parseLine demo_areas demo_killWaypoints demo_quest demo_quest
                "Go {fly|away} to {enter|1_1_town} now" demo_lookup demo_state []))
    = Normal (ActionStep parts :: rest)
    /\ part_texts parts = ["Go "; " to "; " now"].
Proof.
  destruct (line_text_is_kept demo_areas demo_killWaypoints demo_quest demo_quest
              "Go {fly|away} to {enter|1_1_town} now" demo_lookup demo_state
              _ [] _ _ ltac:(vm_compute; discriminate) eq_refl)
    as (parts & rest & Hsteps & Htexts).
  exists parts, rest. split.
  - vm_compute in Hsteps. vm_compute. rewrite Hsteps. reflexivity.
  - rewrite Htexts. reflexivity.
Defined.

Lemma ascend_succeeds_iff_witness :
  evaluateAction demo_areas_plaza demo_killWaypoints demo_quest demo_quest
    ["ascend"] demo_lookup demo_state_plaza
  = succeed AscendAction (set_currentAreaId (Id "1_1_town") demo_state_plaza)
  /\ evaluateAction demo_areas_plaza demo_killWaypoints demo_quest demo_quest
       ["ascend"] demo_lookup demo_state
     = fail ("must be in " +:+ dquote +:+ "Aspirants' Plaza" +:+ dquote) demo_state.
Proof.
  split.
  - apply (ascend_succeeds_iff demo_areas_plaza demo_killWaypoints demo_quest
             demo_quest demo_lookup demo_state_plaza
             aspirants_plaza_act1 aspirants_plaza_act1 eq_refl eq_refl).
    reflexivity.
  - apply (ascend_succeeds_iff demo_areas_plaza demo_killWaypoints demo_quest
             demo_quest demo_lookup demo_state
             twilight_strand aspirants_plaza_act1 eq_refl eq_refl).
    discriminate.
Defined.

Lemma kill_then_waypoint_witness :
  exists state1 state2,
    demo_eval ["kill"; "Hillock"] demo_lookup demo_state_coast
    = succeed (KillAction "Hillock") state1
    /\ demo_eval ["waypoint"; "1_1_2"] demo_lookup state1
       = succeed (WaypointAction (Some "1_1_2")) state2
    /\ currentAreaId state2 = Id "1_1_2"
    /\ JsSet.has (usedWaypoints state2) "1_1_2" = true.
Proof.
  exact (kill_then_waypoint demo_areas demo_killWaypoints demo_quest demo_quest
           "Hillock" "1_1_2" ["1_1_2"] the_coast the_coast demo_lookup
           demo_state_coast eq_refl eq_refl (or_introl eq_refl) eq_refl eq_refl).
Defined.

Lemma waypoint_succeeds_iff_witness :
  exists state',
    demo_eval ["waypoint"; "1_1_2"] demo_lookup
      (set_implicitWaypoints ["1_1_2"] demo_state_coast)
    = succeed (WaypointAction (Some "1_1_2")) state'
    /\ currentAreaId state' = Id "1_1_2"
    /\ JsSet.has (usedWaypoints state') "1_1_2" = true.
Proof.
  destruct (waypoint_succeeds_iff demo_areas demo_killWaypoints demo_quest
              demo_quest "1_1_2" demo_lookup
              (set_implicitWaypoints ["1_1_2"] demo_state_coast))
    as (Hiff & Hafter).
  destruct (Hafter the_coast the_coast eq_refl eq_refl) as (state' & Hrun & H).
  - apply Hiff. exists the_coast, the_coast.
    split; [reflexivity|]. split; [left; reflexivity|].
    split; reflexivity.
  - exists state'. split; [exact Hrun|]. split; apply H.
Defined.

Lemma kill_unlocks_waypoints_witness :
  (exists state',
     demo_eval ["kill"; "Hillock"] demo_lookup demo_state
     = succeed (KillAction "Hillock") state'
     /\ JsSet.has (implicitWaypoints state') "1_1_2" = true)
  /\ demo_eval ["kill"; "constructor"] demo_lookup demo_state = throw demo_state.
Proof.
  destruct (kill_unlocks_waypoints demo_areas demo_killWaypoints demo_quest
              demo_quest "Hillock" demo_lookup demo_state) as (Hown & _).
  destruct (kill_unlocks_waypoints demo_areas demo_killWaypoints demo_quest
              demo_quest "constructor" demo_lookup demo_state) as (_ & Hinherited).
  split.
  - destruct Hown as (state' & Hrun & Hhas & _).
    + left. exists ["1_1_2"]. reflexivity.
    + exists state'. split; [exact Hrun|]. rewrite Hhas. reflexivity.
  - apply Hinherited; reflexivity.
Defined.

Lemma crafting_marks_area_witness :
  (exists state',
     demo_eval ["crafting"; "1_1_2"] demo_lookup demo_state
     = succeed (CraftingAction (Some ["Fire Resistance"; "Life"])) state'
     /\ JsValueSet.has (craftingAreas state') (Id "1_1_2") = true)
  /\ (exists state',
        demo_eval ["crafting"; "hasOwnProperty"] demo_lookup demo_state
        = succeed (CraftingAction None) state'
        /\ craftingAreas state' = [Undefined]).
Proof.
  destruct (crafting_marks_area demo_areas demo_killWaypoints demo_quest
              demo_quest demo_lookup demo_state)
    as (Hnamed & _ & _ & Hinherited).
  split.
  - destruct (Hnamed "1_1_2" the_coast eq_refl) as (state' & Hrun & Hhas & _).
    exists state'. split; assumption.
  - destruct (Hinherited "hasOwnProperty" eq_refl eq_refl)
      as (state' & Hrun & Hset & _).
    exists state'. split; assumption.
Defined.

Lemma inherited_member_as_area_witness :
  demo_eval ["area"; "toString"] demo_lookup demo_state
  = succeed (AreaAction Undefined) demo_state
  /\ demo_eval ["enter"; "toString"] demo_lookup demo_state = throw demo_state
  /\ demo_eval ["waypoint"; "toString"] demo_lookup demo_state
     = fail "missing target waypoint" demo_state.
Proof.
  exact (inherited_member_as_area demo_areas demo_killWaypoints demo_quest
           demo_quest "toString" demo_lookup demo_state eq_refl eq_refl).
Defined.

Lemma own_evaluators_atomic_witness :
  snd (demo_eval ["waypoint"; "1_1_2"] demo_lookup demo_state) = demo_state
  /\ snd (demo_eval ["use_portal"] demo_lookup demo_state) = demo_state.
Proof.
  split.
  - apply (own_evaluators_atomic demo_areas demo_killWaypoints demo_quest
             demo_quest ["waypoint"; "1_1_2"] demo_lookup demo_state _
             "missing target waypoint"); [discriminate|discriminate|reflexivity].
  - apply (own_evaluators_atomic demo_areas demo_killWaypoints demo_quest
             demo_quest ["use_portal"] demo_lookup demo_state _
             "portal must be set"); [discriminate|discriminate|reflexivity].
Defined.

Lemma initializeRouteLookup_entries_witness :
  towns (initializeRouteLookup demo_areas None) !! 1 = Some "1_1_town"
  /\ towns (initializeRouteLookup demo_areas None) !! 2 = None.
Proof.
  split.
  - destruct (initializeRouteLookup_entries demo_areas None 1) as (_ & Hlast).
    apply (Hlast [("1_1_1", twilight_strand)] [("1_1_2", the_coast)]
             "1_1_town" lioneyes_watch eq_refl eq_refl eq_refl).
    intros k' t' [H|[]] Htown. injection H as _ <-. discriminate Htown.
  - destruct (initializeRouteLookup_entries demo_areas None 2) as (Hiff & _).
    destruct (towns (initializeRouteLookup demo_areas None) !! 2) as [t|] eqn:E;
      [|reflexivity].
    destruct Hiff as [Hsome _].
    destruct (Hsome (ex_intro _ t eq_refl)) as (k & a & Hin & _ & Hact).
    exfalso. simpl in Hin.
    repeat match type of Hin with
           | _ \/ _ => destruct Hin as [Hin|Hin]
           end;
      try (injection Hin as _ <-; discriminate Hact); exact Hin.
Defined.

Lemma initializeRouteLookup_supports_invariant_witness :
  towns_cover demo_areas (initializeRouteLookup demo_areas None)
  /\ towns_known demo_areas (initializeRouteLookup demo_areas None).
Proof.
  apply (initializeRouteLookup_supports_invariant demo_areas None
           demo_keyed_by_id).
  intros k a Hin. exists "1_1_town", lioneyes_watch.
  split; [simpl; tauto|]. split; [reflexivity|].
  simpl in Hin.
  repeat match type of Hin with
         | _ \/ _ => destruct Hin as [Hin|Hin]
         end;
    try (injection Hin as _ <-; reflexivity); destruct Hin.
Defined.

Lemma parseStep_text_witness :
  parseStep "Walk east {enter|1_1_2}"
  = ParsedText "Walk east " :: parseStep "{enter|1_1_2}".
Proof.
  apply (parseStep_text "Walk east " "{enter|1_1_2}").
  - discriminate.
  - reflexivity.
  - right. left. exists "enter|1_1_2}". reflexivity.
Defined.

Lemma parseStep_token_witness :
  parseStep "{enter|1_1_2} and rest"
  = ParsedToken ["enter"; "1_1_2"] :: parseStep " and rest".
Proof.
  apply (parseStep_token "enter|1_1_2" " and rest").
  - discriminate.
  - reflexivity.
  - reflexivity.
Defined.

Lemma parseStep_unclosed_brace_witness :
  parseStep "{enter|1_1_2" = parseStep "enter|1_1_2".
Proof.
  apply (parseStep_unclosed_brace "e" "nter|1_1_2"). reflexivity.
Defined.

Lemma parseStep_text_then_comment_witness :
  parseStep "Talk to Nessa  # optional" = [ParsedText "Talk to Nessa  "].
Proof.
  apply (parseStep_text_then_comment "Talk to Nessa  " " optional");
    reflexivity.
Defined.

Lemma splitLines_conventions_witness :
  splitLines ("first" +:+ String LF "second") = "first" :: splitLines "second"
  /\ splitLines ("first" +:+ String CR (String LF "second"))
     = "first" :: splitLines "second".
Proof.
  destruct (splitLines_conventions "first" "second" eq_refl)
    as (_ & Hlf & Hcrlf & _).
  split; assumption.
Defined.
